(** * hikaku-voice: the transcript reducer, the PCM encoder and the speech tracker

    A shallow embedding of [frontend/components/VoiceComparison.tsx]:
    the [ws.onmessage] handler with [handleTranscription] (the transcript
    event reducer), and the [worklet.port.onmessage] callback (Float32 to
    Int16 conversion and the amplitude-gated update of
    [lastSpeechTimeRef]).

    Conventions of the embedding.
    - A JS string is the list of its UTF-16 code units.
    - [Record<string, ProviderState>] is a finite map holding the object's
      own properties.  Reading [prev[p]] also finds the members the object
      inherits from [Object.prototype]: [js_get] below tells an own entry
      from an inherited member and from [undefined].  The map carries each
      provider's entry; the insertion order of the keys, which
      [Object.keys] exposes as the order of the columns, is not modelled,
      and no statement below is about that order.
    - A state updater that throws commits nothing: [states] keeps its
      value.  React reports the error when it renders and unmounts the
      component, which ends the session; the model keeps the last
      committed state.
    - [Date.now()] readings and the latencies computed from them are
      integers far below 2^53, where JS number arithmetic is exact: [Z].
    - An audio sample is a JS number read out of a [Float32Array]: NaN, an
      infinity, or a finite value, kept as an exact rational.  The products
      [s * 0x8000] and [s * 0x7FFF] of a float32 (24 significant bits) with
      a 16 bit constant need at most 40 significant bits, so the binary64
      product is exact and equals the rational product.  Negative zero
      behaves as zero in every operation used ([-0 < 0] is false, and it is
      stored in an [Int16Array] as 0). *)

From Stdlib Require Import ZArith QArith Lia Ascii String Sorted.
From stdpp Require Import gmap strings list fin_maps.

Close Scope Q_scope.
Local Open Scope Z_scope.

(** ** JS strings *)

Module JsString.

Definition jsstring : Type := list N.

(** A string literal: the code units of an ASCII text. *)
Definition js (s : string) : jsstring :=
  List.map N_of_ascii (String.list_ascii_of_string s).

(** ECMAScript [WhiteSpace] and [LineTerminator] code points, all of them
    in the basic plane: TAB, LF, VT, FF, CR, SP, NBSP, U+1680,
    U+2000..U+200A, U+2028, U+2029, U+202F, U+205F, U+3000, U+FEFF. *)
Definition is_white_space (c : N) : bool :=
  ((9 <=? c) && (c <=? 13) ||
   (c =? 32) || (c =? 160) || (c =? 5760) ||
   ((8192 <=? c) && (c <=? 8202)) ||
   (c =? 8232) || (c =? 8233) || (c =? 8239) || (c =? 8287) ||
   (c =? 12288) || (c =? 65279))%N.

Fixpoint trimStart (s : jsstring) : jsstring :=
  match s with
  | [] => []
  | c :: r => if is_white_space c then trimStart r else s
  end.

Definition trimEnd (s : jsstring) : jsstring :=
  rev (trimStart (rev s)).

(** [String.prototype.trim]. *)
Definition trim (s : jsstring) : jsstring := trimEnd (trimStart s).

(** Truthiness of a string: it is not empty. *)
Definition truthy (s : jsstring) : bool :=
  match s with [] => false | _ :: _ => true end.

End JsString.
Export JsString.

(** ** The reducer's data *)

Record TranscriptSegment := {
  seg_text : jsstring;
  seg_latency : Z
}.

Record ProviderState := {
  segments : list TranscriptSegment;
  partialText : jsstring;
  latency : Z;
  lastUpdate : Z
}.

(** The object literal
    [{ segments: [], partialText: "", latency: 0, lastUpdate: 0 }]. *)
Definition fresh_state : ProviderState :=
  {| segments := []; partialText := []; latency := 0; lastUpdate := 0 |}.

(** The fields of a [TranscriptionEvent] the handler reads.  The upstream
    [timestamp] and [latency_ms] are carried by the message and never
    read. *)
Record TranscriptionEvent := {
  provider : jsstring;
  text : jsstring;
  is_final : bool;
  timestamp : Q;
  latency_ms : Q
}.

(** What [JSON.parse(event.data)] can be for the handler: one of the three
    message kinds, or anything else (another [type], or a parse failure
    caught by the [try]). *)
Inductive InboundEvent :=
| Transcription (e : TranscriptionEvent)
| Config (providers : list jsstring)
| Error (message : jsstring)
| Unknown.

(** The component's state: [states], [error] and [lastSpeechTimeRef]. *)
Record Session := {
  states : gmap jsstring ProviderState;
  error : option jsstring;
  lastSpeechTimeRef : Z
}.

Definition initial_session : Session :=
  {| states := ∅; error := None; lastSpeechTimeRef := 0 |}.


(** ** Property lookup on the states object *)

(** The names of the members of [Object.prototype], which every object
    literal inherits.  Read on an object without an own property of that
    name, each yields the inherited function (for [__proto__], the
    prototype object itself): a truthy value that is no [ProviderState]. *)
Definition object_prototype_members : list jsstring :=
  [js "constructor"; js "__defineGetter__"; js "__defineSetter__";
   js "hasOwnProperty"; js "__lookupGetter__"; js "__lookupSetter__";
   js "isPrototypeOf"; js "propertyIsEnumerable"; js "toString";
   js "valueOf"; js "__proto__"; js "toLocaleString"].

Definition proto_member (p : jsstring) : bool :=
  existsb (fun m => bool_decide (p = m)) object_prototype_members.

(** The value of [o[p]]: an own entry, an inherited member of
    [Object.prototype], or [undefined]. *)
Inductive Lookup :=
| Own (st : ProviderState)
| Inherited
| Undefined.

Definition js_get (o : gmap jsstring ProviderState) (p : jsstring) : Lookup :=
  match o !! p with
  | Some st => Own st
  | None => if proto_member p then Inherited else Undefined
  end.

(** ** The reducer *)

(** The value of [current]: a provider state, or a foreign value (an
    inherited function or the prototype object), which has no [segments]. *)
Inductive Current :=
| State (st : ProviderState)
| Foreign.

(** [prev[provider] || { segments: [], ... }]: a stored state and an
    inherited member are truthy and are taken as they are; [undefined]
    gives the default state. *)
Definition resolve (prev : gmap jsstring ProviderState) (p : jsstring)
  : Current :=
  match js_get prev p with
  | Own st => State st
  | Inherited => Foreign
  | Undefined => State fresh_state
  end.

(** The updater passed to [setStates] by [handleTranscription]; [now] is the
    [Date.now()] taken when the message arrived, [speech] the value of
    [lastSpeechTimeRef.current] when the updater runs.  [None] is the
    [TypeError] thrown by [[...current.segments]] when [current] is a
    foreign value, whose [segments] is [undefined]. *)
Definition transcription_update (now speech : Z) (event : TranscriptionEvent)
    (prev : gmap jsstring ProviderState)
  : option (gmap jsstring ProviderState) :=
  match resolve prev (provider event) with
  | Foreign => None
  | State current =>
      let newSegments := segments current in
      let newPartial := text event in
      let latency0 := latency current in
      let '(newSegments, newPartial, latency1) :=
        if is_final event then
          let '(newSegments, latency1) :=
            if truthy (trim (text event)) then
              let timeSinceSpeech := Z.max 0 (now - speech) in
              (newSegments ++ [{| seg_text := text event;
                                  seg_latency := timeSinceSpeech |}],
               timeSinceSpeech)
            else (newSegments, latency0) in
          (newSegments, [], latency1)
        else (newSegments, newPartial, latency0) in
      Some (<[provider event :=
                {| segments := newSegments; partialText := newPartial;
                   latency := latency1; lastUpdate := now |}]> prev)
  end.

(** The body of [data.providers.forEach] in the config branch:
    [if (!next[p]) next[p] = {...}].  An own entry and an inherited member
    are truthy, so only a name that reads [undefined] is given a state. *)
Definition register (next : gmap jsstring ProviderState) (p : jsstring)
  : gmap jsstring ProviderState :=
  match js_get next p with
  | Undefined => <[p := fresh_state]> next
  | Own _ | Inherited => next
  end.

(** The updater of the config branch: copy [prev], then register each
    announced provider in array order. *)
Definition config_update (providers : list jsstring)
    (prev : gmap jsstring ProviderState) : gmap jsstring ProviderState :=
  foldl register prev providers.

(** [handleTranscription] for a message that arrived at time [now]; [s] is
    the component's state when React runs the updater the handler has
    queued, which is when [lastSpeechTimeRef.current] is read: at once
    when no other update is pending, at the next render otherwise.  When
    the updater throws, no state is committed. *)
Definition handleTranscription (now : Z) (event : TranscriptionEvent)
    (s : Session) : Session :=
  match transcription_update now (lastSpeechTimeRef s) event (states s) with
  | Some next =>
      {| states := next;
         error := error s;
         lastSpeechTimeRef := lastSpeechTimeRef s |}
  | None => s
  end.

(** [ws.onmessage] for a message that arrived at wall-clock time [now],
    applied to the state in which its update takes effect. *)
Definition onmessage (now : Z) (data : InboundEvent) (s : Session) : Session :=
  match data with
  | Transcription e => handleTranscription now e s
  | Config ps =>
      {| states := config_update ps (states s);
         error := error s;
         lastSpeechTimeRef := lastSpeechTimeRef s |}
  | Error m =>
      {| states := states s;
         error := Some m;
         lastSpeechTimeRef := lastSpeechTimeRef s |}
  | Unknown => s
  end.

(** ** Audio samples *)

Module Number.

(** A JS number read out of a [Float32Array].  [Inf true] is -Infinity. *)
Inductive number :=
| NaN
| Inf (negative : bool)
| Fin (q : Q).

Definition of_Z (z : Z) : number := Fin (inject_Z z).

(** [a < b]; false when an operand is NaN. *)
Definition ltb (a b : number) : bool :=
  match a, b with
  | NaN, _ | _, NaN => false
  | Inf true, Inf true => false
  | Inf true, _ => true
  | _, Inf true => false
  | Inf false, _ => false
  | _, Inf false => true
  | Fin x, Fin y => negb (Qle_bool y x)
  end.

(** [Math.min(a, b)] and [Math.max(a, b)]: NaN when an operand is NaN. *)
Definition min (a b : number) : number :=
  match a, b with
  | NaN, _ | _, NaN => NaN
  | _, _ => if ltb b a then b else a
  end.

Definition max (a b : number) : number :=
  match a, b with
  | NaN, _ | _, NaN => NaN
  | _, _ => if ltb a b then b else a
  end.

Definition is_zero (q : Q) : bool := (Qnum q =? 0)%Z.
Definition is_neg (q : Q) : bool := (Qnum q <? 0)%Z.

(** [a * b]: NaN propagates, infinity times zero is NaN, the sign of an
    infinite product is the exclusive or of the signs. *)
Definition mul (a b : number) : number :=
  match a, b with
  | NaN, _ | _, NaN => NaN
  | Inf s, Inf t => Inf (xorb s t)
  | Inf s, Fin q | Fin q, Inf s =>
      if is_zero q then NaN else Inf (xorb s (is_neg q))
  | Fin x, Fin y => Fin (Qmult x y)
  end.

(** Truncation toward zero. *)
Definition trunc (q : Q) : Z := Z.quot (Qnum q) (Zpos (Qden q)).

(** Reduction modulo 2^16 into the signed range. *)
Definition wrap16 (z : Z) : Z := (z + 32768) mod 65536 - 32768.

(** [ToInt16], the conversion of a store into an [Int16Array]: NaN and
    the infinities give 0, a finite number is truncated and wrapped. *)
Definition ToInt16 (x : number) : Z :=
  match x with
  | NaN | Inf _ => 0
  | Fin q => wrap16 (trunc q)
  end.

End Number.

(** ** The worklet callback: encoder and speech tracker *)

(** [Math.max(-1, Math.min(1, x))]. *)
Definition clamp (x : Number.number) : Number.number :=
  Number.max (Number.of_Z (-1)) (Number.min (Number.of_Z 1) x).

(** [s < 0 ? s * 0x8000 : s * 0x7FFF]. *)
Definition scale (s : Number.number) : Number.number :=
  if Number.ltb s (Number.of_Z 0)
  then Number.mul s (Number.of_Z 32768)
  else Number.mul s (Number.of_Z 32767).

(** The value stored in [int16Array[i]] for the sample [x]. *)
Definition encode_sample (x : Number.number) : Z :=
  Number.ToInt16 (scale (clamp x)).

(** The [for] loop over the block: the [Int16Array] written and the final
    [maxAmp], from the [maxAmp] on entry. *)
Fixpoint scan (block : list Number.number) (maxAmp : Z) : list Z * Z :=
  match block with
  | [] => ([], maxAmp)
  | x :: rest =>
      let v := encode_sample x in
      let absVal := Z.abs v in
      let maxAmp := if absVal >? maxAmp then absVal else maxAmp in
      let '(out, m) := scan rest maxAmp in
      (v :: out, m)
  end.

(** The PCM frame sent for a block. *)
Definition encode (block : list Number.number) : list Z := (scan block 0).1.

(** The block's maximum absolute scaled amplitude. *)
Definition max_amplitude (block : list Number.number) : Z := (scan block 0).2.

Definition threshold : Z := 500.

(** The tracker's step: the new value of [lastSpeechTimeRef.current] after a
    block observed at wall-clock time [now]. *)
Definition observe (now : Z) (block : list Number.number) (speech : Z) : Z :=
  if max_amplitude block >? threshold then now else speech.

(** [worklet.port.onmessage] at wall-clock time [now]: the new session and
    the [Int16Array] the callback has filled.  Whether the array is sent
    is decided by [worklet_send] below. *)
Definition worklet_onmessage (now : Z) (block : list Number.number)
    (s : Session) : Session * list Z :=
  ({| states := states s;
      error := error s;
      lastSpeechTimeRef := observe now block (lastSpeechTimeRef s) |},
   encode block).

(** The [readyState] of a [WebSocket]. *)
Inductive ReadyState := CONNECTING | OPEN | CLOSING | CLOSED.

(** [websocketRef.current?.readyState === WebSocket.OPEN]; the ref is
    [null] until the effect has created the socket. *)
Definition socket_open (ws : option ReadyState) : bool :=
  match ws with
  | Some OPEN => true
  | _ => false
  end.

(** What the callback sends for a block: the array's buffer when the
    socket is open, nothing otherwise. *)
Definition worklet_send (ws : option ReadyState) (block : list Number.number)
  : option (list Z) :=
  if socket_open ws then Some (encode block) else None.

(** The tracker over a sequence of blocks, each with the clock reading of
    its callback: every value [lastSpeechTimeRef.current] takes, the one
    on entry first. *)
Fixpoint tracker_trace (speech : Z) (blocks : list (Z * list Number.number))
  : list Z :=
  match blocks with
  | [] => [speech]
  | (now, block) :: rest => speech :: tracker_trace (observe now block speech) rest
  end.

(** The successive clock readings of a run. *)
Definition readings (blocks : list (Z * list Number.number)) : list Z :=
  List.map fst blocks.

(** ** Callbacks of a session *)

(** The two callbacks that change the component's state.  A run lists them
    in the order in which they take effect: an audio callback when it is
    called, at clock reading [now]; a message callback when the state
    update it has queued is computed, [now] being the clock reading taken
    when the message arrived, so that audio callbacks that ran between the
    arrival and the update come before it in the run. *)
Inductive Callback :=
| OnMessage (now : Z) (data : InboundEvent)
| OnBlock (now : Z) (block : list Number.number).

Definition step (s : Session) (c : Callback) : Session :=
  match c with
  | OnMessage now data => onmessage now data s
  | OnBlock now block => (worklet_onmessage now block s).1
  end.

Definition run (cs : list Callback) (s : Session) : Session := foldl step s cs.

(** An audio callback whose block does not exceed the threshold; message
    callbacks count as quiet. *)
Definition quiet (c : Callback) : Prop :=
  match c with
  | OnMessage _ _ => True
  | OnBlock _ block => max_amplitude block <= threshold
  end.

(** ** Specification-side definitions *)

(** The encoder as the specification words it, on a finite sample: clamp
    to [-1, 1], scale by 32768 if negative and by 32767 otherwise; the
    integer kept is the scaled value truncated toward zero. *)
Definition spec_clamp (q : Q) : Q :=
  if Qle_bool 1 q then 1%Q else if Qle_bool q (-1) then (-1)%Q else q.

Definition spec_encode (q : Q) : Z :=
  let c := spec_clamp q in
  if negb (Qle_bool 0 c) then Number.trunc (c * 32768)%Q
  else Number.trunc (c * 32767)%Q.

(** The block's peak as the specification words it: the largest absolute
    value among the integer-scaled samples (0 for an empty block). *)
Definition peak (block : list Number.number) : Z :=
  foldr Z.max 0 (List.map (fun x => Z.abs (encode_sample x)) block).

(** ** Sample inputs *)

Module Samples.

Definition event (p t : string) (final : bool) : TranscriptionEvent :=
  {| provider := js p; text := js t; is_final := final;
     timestamp := 0%Q; latency_ms := 0%Q |}.

(** Provider A has shown the partial hypothesis "hel"; provider B has one
    finished segment; speech was last heard at time 1000. *)
Definition session_hel : Session :=
  {| states :=
       <[js "A" := {| segments := []; partialText := js "hel";
                      latency := 0; lastUpdate := 900 |}]>
       (<[js "B" := {| segments := [{| seg_text := js "ok"; seg_latency := 120 |}];
                       partialText := []; latency := 120; lastUpdate := 800 |}]> ∅);
     error := Some (js "old failure");
     lastSpeechTimeRef := 1000 |}.


End Samples.

(** ** A sample run *)

Module Scenario.

(** Speech is heard at time 1000, two providers are announced, one sends a
    partial and a final text, the other a final text. *)
Definition talk : list Callback :=
  [OnBlock 1000 [Number.Fin (1 # 2)];
   OnMessage 1001 (Config [js "deepgram"; js "openai"]);
   OnMessage 1100 (Transcription (Samples.event "deepgram" "hi" false));
   OnMessage 1300 (Transcription (Samples.event "deepgram" "hi there" true));
   OnMessage 1500 (Transcription (Samples.event "openai" "hi there." true))].

End Scenario.

(** ** The state one transcription event stores *)

(** The object literal built at the end of the [setStates] updater, as a
    function of the event and of the resolved [current] state. *)
Definition stored_state (now speech : Z) (e : TranscriptionEvent)
    (current : ProviderState) : ProviderState :=
  if is_final e then
    if truthy (trim (text e)) then
      {| segments := segments current ++
           [{| seg_text := text e; seg_latency := Z.max 0 (now - speech) |}];
         partialText := [];
         latency := Z.max 0 (now - speech);
         lastUpdate := now |}
    else
      {| segments := segments current; partialText := [];
         latency := latency current; lastUpdate := now |}
  else
    {| segments := segments current; partialText := text e;
       latency := latency current; lastUpdate := now |}.

(** ** What the component renders *)

(** [Math.max(1, Object.keys(states).length)], the number of grid columns. *)
Definition gridColumns (st : gmap jsstring ProviderState) : Z :=
  Z.max 1 (Z.of_nat (size st)).

(** [Object.keys(states).length === 0]: the placeholder
    "Waiting for transcription providers..." is shown. *)
Definition waitingForProviders (st : gmap jsstring ProviderState) : bool :=
  (size st =? 0)%nat.

(** [states[provider]?.lastUpdate > Date.now() - 1000], the green dot of a
    listed provider, at render time [now]. *)
Definition isActive (now : Z) (p : ProviderState) : bool :=
  lastUpdate p >? now - 1000.

(** [states[provider]?.partialText && ...]: the partial line is shown. *)
Definition showsPartial (p : ProviderState) : bool := truthy (partialText p).

(** [!states[provider]?.segments.length && !states[provider]?.partialText]:
    the placeholder "Waiting for speech..." is shown. *)
Definition waitingForSpeech (p : ProviderState) : bool :=
  (length (segments p) =? 0)%nat && negb (truthy (partialText p)).

(** ** The audio worklet processor *)

(** [PCMProcessor.process(inputs)]: the returned flag and the channel
    posted to the main thread, if any.  [inputs] is an array of inputs, an
    input an array of channels; a channel is a [Float32Array], truthy even
    when empty. *)
Definition process (inputs : list (list (list Number.number)))
  : bool * option (list Number.number) :=
  match inputs with
  | [] => (true, None)
  | input :: _ =>
      match input with
      | [] => (true, None)
      | inputChannel :: _ => (true, Some inputChannel)
      end
  end.

(** One render quantum: [process] in the worklet, then, when a channel was
    posted, [worklet.port.onmessage] on the main thread at time [now],
    with the socket in state [ws]: the new session and the frame sent, if
    one is sent. *)
Definition quantum (now : Z) (ws : option ReadyState)
    (inputs : list (list (list Number.number)))
    (s : Session) : Session * option (list Z) :=
  match (process inputs).2 with
  | None => (s, None)
  | Some block => ((worklet_onmessage now block s).1, worklet_send ws block)
  end.

(** ** Connection and recording handlers *)

(** The component's state with the [isRecording] flag. *)
Record Component := {
  session : Session;
  isRecording : bool
}.

Definition setError (v : option jsstring) (c : Component) : Component :=
  {| session := {| states := states (session c);
                   error := v;
                   lastSpeechTimeRef := lastSpeechTimeRef (session c) |};
     isRecording := isRecording c |}.

Definition setIsRecording (b : bool) (c : Component) : Component :=
  {| session := session c; isRecording := b |}.

(** The handlers of the component.  [startRecording] is asynchronous: it
    clears the error, awaits the microphone and the audio context, and
    later either sets [isRecording] or reports the failure caught.  The
    media stream and the audio context that [startRecording] acquires and
    [stopRecording] releases are browser resources outside this state. *)
Inductive Handler :=
| WsOpen
| WsError
| Fire (c : Callback)
| StartRecordingBegin
| StartRecordingEnd (acquired : bool)
| StopRecording.

Definition handle (c : Component) (h : Handler) : Component :=
  match h with
  | WsOpen => setError None c
  | WsError =>
      setError (Some (js "Failed to connect to backend. Is it running?")) c
  | Fire cb => {| session := step (session c) cb; isRecording := isRecording c |}
  | StartRecordingBegin => setError None c
  | StartRecordingEnd true => setIsRecording true c
  | StartRecordingEnd false =>
      setError (Some (js "Could not access microphone.")) c
  | StopRecording => setIsRecording false c
  end.

Definition handle_all (hs : list Handler) (c : Component) : Component :=
  foldl handle c hs.

(** The callbacks among a sequence of handlers. *)
Definition fired (hs : list Handler) : list Callback :=
  omap (fun h => match h with Fire cb => Some cb | _ => None end) hs.

(** What a handler writes to [error], if it writes. *)
Definition error_write (h : Handler) : option (option jsstring) :=
  match h with
  | WsOpen | StartRecordingBegin => Some None
  | WsError => Some (Some (js "Failed to connect to backend. Is it running?"))
  | StartRecordingEnd false => Some (Some (js "Could not access microphone."))
  | Fire (OnMessage _ (Error m)) => Some (Some m)
  | _ => None
  end.

(** ** Events of a run, by provider *)

(** The callback is a transcription event for provider [p]. *)
Definition transcription_for (p : jsstring) (c : Callback) : bool :=
  match c with
  | OnMessage _ (Transcription e) => bool_decide (provider e = p)
  | _ => false
  end.

(** The callback is a final transcription event for [p] whose trimmed text
    is not empty. *)
Definition commits_segment (p : jsstring) (c : Callback) : bool :=
  match c with
  | OnMessage _ (Transcription e) =>
      bool_decide (provider e = p) && is_final e && truthy (trim (text e))
  | _ => false
  end.

(** The providers a callback names: the event's provider, or the announced
    ones. *)
Definition mentions (c : Callback) : gset jsstring :=
  match c with
  | OnMessage _ (Transcription e) => {[ provider e ]}
  | OnMessage _ (Config ps) => list_to_set ps
  | _ => ∅
  end.

(** An audio callback whose block exceeds the threshold. *)
Definition loud (block : list Number.number) : Prop :=
  threshold < max_amplitude block.

(** ** Invariants of a provider's state *)

Definition latencies_nonnegative (p : ProviderState) : Prop :=
  0 <= latency p /\ Forall (fun seg => 0 <= seg_latency seg) (segments p).

Definition segments_not_blank (p : ProviderState) : Prop :=
  Forall (fun seg => truthy (trim (seg_text seg)) = true) (segments p).

Definition latency_is_latest (p : ProviderState) : Prop :=
  latency p = default 0 (seg_latency <$> last (segments p)).

(** ** Loud samples *)

(** A sample that alone makes its block exceed the threshold, stated on the
    sample itself: an infinity, or a finite value at least 501/32767 or at
    most -501/32768.  NaN is never loud. *)
Definition is_loud_sample (x : Number.number) : bool :=
  match x with
  | Number.NaN => false
  | Number.Inf _ => true
  | Number.Fin q => Qle_bool (501 # 32767) q || Qle_bool q (-501 # 32768)
  end.

(** What a handler writes to [isRecording], if it writes. *)
Definition recording_write (h : Handler) : option bool :=
  match h with
  | StartRecordingEnd true => Some true
  | StopRecording => Some false
  | _ => None
  end.

(** The providers a callback can add to the listed ones: those it names
    that are not named like a member of [Object.prototype]. *)
Definition registers (c : Callback) : gset jsstring :=
  filter (fun p => proto_member p = false) (mentions c).

(** A sample whose encoding is -32768, the value of largest magnitude. *)
Definition is_full_negative (x : Number.number) : bool :=
  match x with
  | Number.NaN => false
  | Number.Inf negative => negative
  | Number.Fin q => Qle_bool q (-1)
  end.

(** ** Facts about the reducer *)

Section Reducer.

Implicit Types (prev : gmap jsstring ProviderState) (e : TranscriptionEvent).
Implicit Types (s : Session) (p : jsstring) (cur : ProviderState).

Lemma truthy_nonempty (t : jsstring) : truthy t = true <-> t ≠ [].
Proof. destruct t; simpl; split; congruence. Qed.

Lemma resolve_own prev p st : prev !! p = Some st -> resolve prev p = State st.
Proof. unfold resolve, js_get. by intros ->. Qed.

Lemma resolve_undefined prev p :
  prev !! p = None -> proto_member p = false -> resolve prev p = State fresh_state.
Proof. unfold resolve, js_get. by intros -> ->. Qed.

Lemma resolve_inherited prev p :
  prev !! p = None -> proto_member p = true -> resolve prev p = Foreign.
Proof. unfold resolve, js_get. by intros -> ->. Qed.

Lemma resolve_state prev p cur :
  resolve prev p = State cur ->
  prev !! p = Some cur
  \/ (prev !! p = None /\ proto_member p = false /\ cur = fresh_state).
Proof.
  unfold resolve, js_get. destruct (prev !! p) as [st|].
  - intros [= ->]. by left.
  - destruct (proto_member p); [done|]. intros [= <-]. by right.
Qed.

Lemma resolve_foreign prev p :
  resolve prev p = Foreign -> prev !! p = None /\ proto_member p = true.
Proof.
  unfold resolve, js_get. destruct (prev !! p) as [st|]; [done|].
  by destruct (proto_member p).
Qed.

Lemma resolve_regular prev p :
  proto_member p = false -> exists cur, resolve prev p = State cur.
Proof.
  intros Hp. unfold resolve, js_get. rewrite Hp.
  destruct (prev !! p) as [st|]; eauto.
Qed.

Lemma update_state now speech e prev cur :
  resolve prev (provider e) = State cur ->
  transcription_update now speech e prev =
    Some (<[provider e := stored_state now speech e cur]> prev).
Proof.
  intros Hr. unfold transcription_update, stored_state. rewrite Hr.
  destruct (is_final e); [destruct (truthy (trim (text e)))|]; reflexivity.
Qed.

Lemma update_foreign now speech e prev :
  resolve prev (provider e) = Foreign ->
  transcription_update now speech e prev = None.
Proof. intros Hr. unfold transcription_update. by rewrite Hr. Qed.

Lemma states_transcription now e s :
  states (onmessage now (Transcription e) s) =
    match resolve (states s) (provider e) with
    | State cur =>
        <[provider e := stored_state now (lastSpeechTimeRef s) e cur]> (states s)
    | Foreign => states s
    end.
Proof.
  simpl. unfold handleTranscription.
  destruct (resolve (states s) (provider e)) as [cur|] eqn:Hr.
  - by rewrite (update_state _ _ _ _ cur Hr).
  - by rewrite (update_foreign _ _ _ _ Hr).
Qed.

Lemma stored_lookup now e s cur :
  resolve (states s) (provider e) = State cur ->
  states (onmessage now (Transcription e) s) !! provider e =
    Some (stored_state now (lastSpeechTimeRef s) e cur).
Proof.
  intros Hr. rewrite states_transcription, Hr. apply lookup_insert_eq.
Qed.

Lemma other_lookup now e s p :
  p ≠ provider e ->
  states (onmessage now (Transcription e) s) !! p = states s !! p.
Proof.
  intros Hne. rewrite states_transcription.
  destruct (resolve (states s) (provider e)); [|done].
  by apply lookup_insert_ne.
Qed.

Lemma register_lookup next p q :
  register next p !! q =
    match next !! q with
    | Some st => Some st
    | None =>
        if decide (q = p)
        then if proto_member q then None else Some fresh_state
        else None
    end.
Proof.
  unfold register, js_get. destruct (next !! p) as [st|] eqn:Hp.
  - destruct (next !! q) eqn:Hq; [done|].
    destruct (decide (q = p)) as [->|]; [congruence | done].
  - destruct (decide (q = p)) as [->|Hne].
    + rewrite Hp. destruct (proto_member p); [done|]. apply lookup_insert_eq.
    + destruct (proto_member p); [by destruct (next !! q)|].
      rewrite lookup_insert_ne by congruence. by destruct (next !! q).
Qed.

Lemma config_update_lookup ps prev q :
  config_update ps prev !! q =
    match prev !! q with
    | Some st => Some st
    | None =>
        if decide (q ∈ ps)
        then if proto_member q then None else Some fresh_state
        else None
    end.
Proof.
  unfold config_update. revert prev.
  induction ps as [|p ps IH]; intros prev; cbn [foldl].
  - destruct (prev !! q); [done|].
    destruct (decide (q ∈ [])) as [Hin|]; [by apply elem_of_nil in Hin | done].
  - rewrite IH, register_lookup.
    destruct (prev !! q); [done|].
    destruct (decide (q = p)) as [->|Hne].
    + destruct (decide (p ∈ p :: ps)) as [|Hin].
      * destruct (proto_member p); [|done]. by destruct (decide (p ∈ ps)).
      * exfalso. apply Hin, elem_of_cons. by left.
    + destruct (decide (q ∈ ps)) as [Hin|Hin];
        destruct (decide (q ∈ p :: ps)) as [Hin'|Hin']; try done.
      * exfalso. apply Hin', elem_of_cons. by right.
      * apply elem_of_cons in Hin' as [?|?]; done.
Qed.


End Reducer.

(** ** Facts about the encoder *)

Section Encoder.

Import Number.

Lemma wrap16_id z : -32768 <= z <= 32767 -> wrap16 z = z.
Proof. intros H. unfold wrap16. rewrite Z.mod_small; lia. Qed.

Lemma wrap16_range z : -32768 <= wrap16 z <= 32767.
Proof.
  unfold wrap16. pose proof (Z.mod_pos_bound (z + 32768) 65536). lia.
Qed.

Lemma quot_scaled_bounds n d k :
  0 < d -> 0 <= k -> - d <= n <= d -> - k <= (n * k) ÷ d <= k.
Proof.
  intros Hd Hk Hn. split.
  - rewrite <- (Z.quot_mul (- k) d) by lia.
    apply Z.quot_le_mono; [lia | nia].
  - rewrite <- (Z.quot_mul k d) at 2 by lia.
    apply Z.quot_le_mono; [lia | nia].
Qed.

Lemma spec_clamp_range q :
  - Zpos (Qden (spec_clamp q)) <= Qnum (spec_clamp q) <= Zpos (Qden (spec_clamp q)).
Proof.
  unfold spec_clamp, Qle_bool. destruct q as [n d]. simpl.
  repeat match goal with
         | |- context [Z.leb ?a ?b] => destruct (Z.leb_spec a b)
         end; simpl; lia.
Qed.

Lemma clamp_finite q : clamp (Fin q) = Fin (spec_clamp q).
Proof.
  destruct q as [n d].
  unfold clamp, spec_clamp, Number.min, Number.max, ltb, of_Z, Qle_bool, inject_Z.
  cbn -[Z.mul Z.leb].
  destruct (1 * Z.pos d <=? n * 1) eqn:H1; cbn -[Z.mul Z.leb]; [reflexivity|].
  destruct (n * 1 <=? -1 * Z.pos d) eqn:H2; cbn -[Z.mul Z.leb]; reflexivity.
Qed.

Lemma scale_finite c :
  scale (Fin c) =
    Fin (if negb (Qle_bool 0 c) then (c * 32768)%Q else (c * 32767)%Q).
Proof.
  unfold scale, ltb, mul, of_Z.
  change (inject_Z 0) with 0%Q.
  by destruct (Qle_bool 0 c).
Qed.

Lemma trunc_scaled_range c k :
  0 <= k ->
  - Zpos (Qden c) <= Qnum c <= Zpos (Qden c) ->
  - k <= trunc (c * inject_Z k)%Q <= k.
Proof.
  intros Hk Hc. unfold trunc. destruct c as [n d]. simpl in *.
  rewrite Pos.mul_1_r. apply quot_scaled_bounds; lia.
Qed.

Lemma trunc_negative_scaled c k :
  0 <= k -> Qnum c <= 0 -> trunc (c * inject_Z k)%Q <= 0.
Proof.
  intros Hk Hc. unfold trunc. destruct c as [n d]. simpl in *.
  rewrite Pos.mul_1_r.
  rewrite <- (Z.quot_0_l (Z.pos d)) by lia.
  apply Z.quot_le_mono; [lia | nia].
Qed.

Lemma spec_encode_range q : -32768 <= spec_encode q <= 32767.
Proof.
  unfold spec_encode. pose proof (spec_clamp_range q) as Hc.
  destruct (Qle_bool 0 (spec_clamp q)) eqn:H0; simpl.
  - pose proof (trunc_scaled_range (spec_clamp q) 32767 ltac:(lia) Hc) as H.
    change (inject_Z 32767) with 32767%Q in H. lia.
  - pose proof (trunc_scaled_range (spec_clamp q) 32768 ltac:(lia) Hc) as H.
    change (inject_Z 32768) with 32768%Q in H.
    assert (Hneg : Qnum (spec_clamp q) <= 0).
    { unfold Qle_bool in H0. simpl in H0. apply Z.leb_gt in H0. lia. }
    pose proof (trunc_negative_scaled (spec_clamp q) 32768 ltac:(lia) Hneg) as H'.
    change (inject_Z 32768) with 32768%Q in H'. lia.
Qed.

Lemma encode_sample_finite q : encode_sample (Fin q) = spec_encode q.
Proof.
  unfold encode_sample. rewrite clamp_finite, scale_finite. cbn [ToInt16].
  assert (Hs : trunc (if negb (Qle_bool 0 (spec_clamp q))
                      then (spec_clamp q * 32768)%Q
                      else (spec_clamp q * 32767)%Q) = spec_encode q).
  { unfold spec_encode. by destruct (negb _). }
  rewrite Hs. apply wrap16_id, spec_encode_range.
Qed.

Lemma spec_encode_above q : Qle_bool 1 q = true -> spec_encode q = 32767.
Proof. intros H. unfold spec_encode, spec_clamp. by rewrite H. Qed.

Lemma spec_encode_below q : Qle_bool q (-1) = true -> spec_encode q = -32768.
Proof.
  intros H. unfold spec_encode, spec_clamp.
  destruct (Qle_bool 1 q) eqn:H1; [|by rewrite H].
  exfalso. destruct q as [n d]. unfold Qle_bool in H, H1. simpl in H, H1.
  apply Z.leb_le in H, H1. lia.
Qed.

Lemma encode_sample_range x : -32768 <= encode_sample x <= 32767.
Proof.
  destruct x as [|[]|q]; try (vm_compute; split; discriminate).
  rewrite encode_sample_finite. apply spec_encode_range.
Qed.

Lemma scan_frame block m :
  (scan block m).1 = List.map encode_sample block.
Proof.
  revert m. induction block as [|x rest IH]; intros m; [reflexivity|].
  cbn [scan]. specialize (IH (if Z.abs (encode_sample x) >? m
                              then Z.abs (encode_sample x) else m)).
  destruct (scan rest _) as [out m']. simpl in *. by rewrite IH.
Qed.

Lemma scan_peak block m :
  0 <= m ->
  (scan block m).2 =
    Z.max m (foldr Z.max 0 (List.map (fun x => Z.abs (encode_sample x)) block)).
Proof.
  revert m. induction block as [|x rest IH]; intros m Hm.
  - simpl. lia.
  - cbn [scan]. specialize (IH (if Z.abs (encode_sample x) >? m
                                then Z.abs (encode_sample x) else m)).
    destruct (scan rest _) as [out m']. simpl in *.
    destruct (Z.gtb_spec (Z.abs (encode_sample x)) m); rewrite IH; lia.
Qed.

Lemma peak_nonneg block : 0 <= peak block.
Proof. unfold peak. induction block; simpl; lia. Qed.

Lemma max_amplitude_peak block : max_amplitude block = peak block.
Proof.
  unfold max_amplitude, peak. rewrite scan_peak by lia.
  pose proof (peak_nonneg block) as H. unfold peak in H. lia.
Qed.

End Encoder.

(** ** Facts about the speech tracker *)

Section Tracker.

Implicit Types (blocks : list (Z * list Number.number)) (speech now lo : Z).

Lemma observe_loud now block speech :
  threshold < max_amplitude block -> observe now block speech = now.
Proof.
  intros H. unfold observe.
  destruct (Z.gtb_spec (max_amplitude block) threshold); [done | lia].
Qed.

Lemma observe_quiet now block speech :
  max_amplitude block <= threshold -> observe now block speech = speech.
Proof.
  intros H. unfold observe.
  destruct (Z.gtb_spec (max_amplitude block) threshold); [lia | done].
Qed.

Lemma observe_cases now block speech :
  observe now block speech = now \/ observe now block speech = speech.
Proof. unfold observe. destruct (_ >? _); auto. Qed.

Lemma trace_lower_bound blocks speech lo :
  lo <= speech ->
  Forall (fun t => lo <= t) (readings blocks) ->
  Forall (fun t => lo <= t) (tracker_trace speech blocks).
Proof.
  revert speech. induction blocks as [|[now block] rest IH]; intros speech Hs Hr.
  - by constructor.
  - cbn [tracker_trace]. simpl in Hr. inversion_clear Hr as [|? ? Hnow Hrest].
    constructor; [done|]. apply IH; [|done].
    destruct (observe_cases now block speech) as [-> | ->]; done.
Qed.

Lemma trace_monotone blocks speech :
  Sorted Z.le (readings blocks) ->
  Forall (fun t => speech <= t) (readings blocks) ->
  StronglySorted Z.le (tracker_trace speech blocks).
Proof.
  revert speech. induction blocks as [|[now block] rest IH]; intros speech Hs Hr.
  - repeat constructor.
  - cbn [tracker_trace]. simpl in Hs, Hr.
    inversion_clear Hr as [|? ? Hnow Hrest].
    apply Sorted_StronglySorted in Hs; [|intros ? ? ?; apply Z.le_trans].
    inversion_clear Hs as [|? ? Hsorted Hlater].
    destruct (observe_cases now block speech) as [Ho | Ho]; rewrite Ho.
    + constructor.
      * apply IH; [by apply StronglySorted_Sorted | done].
      * apply trace_lower_bound; [done|].
        eapply Forall_impl; [exact Hlater|]. simpl. intros. lia.
    + constructor.
      * apply IH; [by apply StronglySorted_Sorted | done].
      * by apply trace_lower_bound.
Qed.

Lemma onmessage_keeps_speech now data s :
  lastSpeechTimeRef (onmessage now data s) = lastSpeechTimeRef s.
Proof.
  destruct data as [e|ps|m|]; try reflexivity.
  simpl. unfold handleTranscription. by destruct (transcription_update _ _ _ _).
Qed.

Lemma run_quiet_keeps_speech cs s :
  Forall quiet cs -> lastSpeechTimeRef (run cs s) = lastSpeechTimeRef s.
Proof.
  unfold run. revert s. induction cs as [|c cs IH]; intros s Hq; [done|].
  inversion_clear Hq as [|? ? Hc Hcs]. cbn [foldl]. rewrite IH by done.
  destruct c as [now data | now block]; simpl.
  - apply onmessage_keeps_speech.
  - by apply observe_quiet.
Qed.

End Tracker.

(** ** The transcription branch *)










(** C5: a transcription event for one provider leaves the entry of every
    other provider as it was, present or absent. *)
Theorem transcription_frame now e s (B : jsstring) :
  B ≠ provider e ->
  states (onmessage now (Transcription e) s) !! B = states s !! B.
Proof. intros Hne. by apply other_lookup. Qed.

Lemma transcription_frame_witness :
  states (onmessage 1250 (Transcription (Samples.event "A" "hello" true))
            Samples.session_hel) !! js "B" =
    Some {| segments := [{| seg_text := js "ok"; seg_latency := 120 |}];
            partialText := []; latency := 120; lastUpdate := 800 |}.
Proof.
  refine (eq_trans (transcription_frame 1250 (Samples.event "A" "hello" true)
                      Samples.session_hel (js "B") _) eq_refl).
  vm_compute. discriminate.
Defined.

(** ** The config and error branches *)



(** C9: an error event keeps the provider states and makes its message the
    session's error, whatever the error was before. *)
Theorem error_overwrites_error now m s :
  states (onmessage now (Error m) s) = states s
  /\ error (onmessage now (Error m) s) = Some m
  /\ (forall now' m',
        error (onmessage now' (Error m') (onmessage now (Error m) s)) = Some m').
Proof. by repeat split. Qed.

(** ** The encoder and the tracker *)

(** C6: the per-sample encoder is total; on a finite sample it is the
    specification's clamp-then-scale (clamp to [-1, 1], times 32768 when
    negative and times 32767 otherwise), the store never wraps, 1 gives
    32767, -1 gives -32768, 0 gives 0, samples above 1 and below -1 (the
    infinities too) give the values of 1 and -1, NaN gives 0, and every
    output lies in [-32768, 32767]. *)
Theorem encoder_clamps_then_scales :
  encode_sample (Number.of_Z 1) = 32767
  /\ encode_sample (Number.of_Z (-1)) = -32768
  /\ encode_sample (Number.of_Z 0) = 0
  /\ (forall q, encode_sample (Number.Fin q) = spec_encode q)
  /\ (forall q, (1 <= q)%Q -> encode_sample (Number.Fin q) = 32767)
  /\ (forall q, (q <= -1)%Q -> encode_sample (Number.Fin q) = -32768)
  /\ encode_sample (Number.Inf false) = 32767
  /\ encode_sample (Number.Inf true) = -32768
  /\ encode_sample Number.NaN = 0
  /\ (forall x, -32768 <= encode_sample x <= 32767)
  /\ (forall block, encode block = List.map encode_sample block).
Proof.
  repeat split; try reflexivity.
  - apply encode_sample_finite.
  - intros q Hq. rewrite encode_sample_finite.
    apply spec_encode_above. by apply Qle_bool_iff.
  - intros q Hq. rewrite encode_sample_finite.
    apply spec_encode_below. by apply Qle_bool_iff.
  - apply encode_sample_range.
  - apply encode_sample_range.
  - intros block. apply scan_frame.
Qed.

Lemma encoder_clamps_then_scales_witness :
  encode_sample (Number.Fin (5 # 2)) = 32767
  /\ encode_sample (Number.Fin (-7 # 3)) = -32768.
Proof.
  destruct encoder_clamps_then_scales
    as (_ & _ & _ & _ & Habove & Hbelow & _).
  split.
  - apply Habove. vm_compute. discriminate.
  - apply Hbelow. vm_compute. discriminate.
Defined.

(** C7: the tracker's [maxAmp] is the largest absolute value of the block's
    encoded samples, and the marker is replaced by the current time exactly
    when that maximum is strictly above 500: at 500 it is kept, at 501 it
    is replaced. *)
Theorem tracker_threshold_is_strict now block speech :
  max_amplitude block = peak block
  /\ (peak block = 500 -> observe now block speech = speech)
  /\ (peak block = 501 -> observe now block speech = now)
  /\ (peak block <= 500 -> observe now block speech = speech)
  /\ (500 < peak block -> observe now block speech = now).
Proof.
  pose proof (max_amplitude_peak block) as Hp.
  split; [done|]. unfold threshold in *.
  repeat split; intros H.
  - apply observe_quiet. unfold threshold. lia.
  - apply observe_loud. unfold threshold. lia.
  - apply observe_quiet. unfold threshold. lia.
  - apply observe_loud. unfold threshold. lia.
Qed.

Lemma tracker_threshold_is_strict_witness :
  observe 2000 [Number.Fin (1 # 100); Number.Fin (-125 # 8192)] 1000 = 1000
  /\ observe 2000 [Number.Fin (1 # 100); Number.Fin (-501 # 32768)] 1000 = 2000.
Proof.
  split.
  - apply (tracker_threshold_is_strict 2000
             [Number.Fin (1 # 100); Number.Fin (-125 # 8192)] 1000).
    reflexivity.
  - apply (tracker_threshold_is_strict 2000
             [Number.Fin (1 # 100); Number.Fin (-501 # 32768)] 1000).
    reflexivity.
Defined.

(** C8: when the clock readings of the audio callbacks, counted from the
    epoch (the marker's initial value 0), are non-decreasing, the
    successive values of the marker, the initial one included, never
    decrease: each is at most every later one. *)
Theorem marker_never_moves_back (blocks : list (Z * list Number.number)) :
  Sorted Z.le (lastSpeechTimeRef initial_session :: readings blocks) ->
  StronglySorted Z.le
    (tracker_trace (lastSpeechTimeRef initial_session) blocks).
Proof.
  intros H.
  apply Sorted_StronglySorted in H; [|intros ? ? ?; apply Z.le_trans].
  inversion_clear H as [|? ? Hs Hall].
  apply trace_monotone; [by apply StronglySorted_Sorted | done].
Qed.

Lemma marker_never_moves_back_witness :
  StronglySorted Z.le [0; 1000; 1000; 1040].
Proof.
  refine (marker_never_moves_back
            [(1000, [Number.Fin (1 # 2)]);
             (1020, [Number.Fin 0]);
             (1040, [Number.Fin (-1 # 4)])] _).
  repeat constructor; simpl; lia.
Defined.



(** ** A whole session *)

(** The scenario of the design's test list: speech is last heard at time
    1000, both providers are announced, one sends a partial and then its
    final text 300 ms after the speech, the other only a final text after
    500 ms. *)
Example end_to_end_scenario :
  let s := run [OnBlock 1000 [Number.Fin (1 # 2)];
                OnMessage 1001 (Config [js "deepgram"; js "openai"]);
                OnMessage 1100 (Transcription (Samples.event "deepgram" "hi" false));
                OnMessage 1300 (Transcription (Samples.event "deepgram" "hi there" true));
                OnMessage 1500 (Transcription (Samples.event "openai" "hi there." true))]
               initial_session in
  states s !! js "deepgram" =
    Some {| segments := [{| seg_text := js "hi there"; seg_latency := 300 |}];
            partialText := []; latency := 300; lastUpdate := 1300 |}
  /\ states s !! js "openai" =
    Some {| segments := [{| seg_text := js "hi there."; seg_latency := 500 |}];
            partialText := []; latency := 500; lastUpdate := 1500 |}
  /\ size (states s) = 2%nat
  /\ lastSpeechTimeRef s = 1000.
Proof. vm_compute. repeat split. Qed.

(** ** The reducer over whole runs *)

Section ReducerRuns.

Implicit Types (prev : gmap jsstring ProviderState) (e : TranscriptionEvent).
Implicit Types (s : Session) (p : jsstring) (c : Callback) (cs : list Callback).

Lemma onmessage_lookup now e s p :
  states (onmessage now (Transcription e) s) !! p =
    match resolve (states s) (provider e) with
    | State cur =>
        if decide (p = provider e)
        then Some (stored_state now (lastSpeechTimeRef s) e cur)
        else states s !! p
    | Foreign => states s !! p
    end.
Proof.
  rewrite states_transcription.
  destruct (resolve (states s) (provider e)) as [cur|]; [|done].
  destruct (decide (p = provider e)) as [->|Hne].
  - apply lookup_insert_eq.
  - by apply lookup_insert_ne.
Qed.

Lemma resolve_lookup_eq (m1 m2 : gmap jsstring ProviderState) p :
  m1 !! p = m2 !! p -> resolve m1 p = resolve m2 p.
Proof. unfold resolve, js_get. by intros ->. Qed.

Lemma resolve_config ps prev p :
  resolve (config_update ps prev) p = resolve prev p.
Proof.
  unfold resolve, js_get. rewrite config_update_lookup.
  destruct (prev !! p); [done|].
  destruct (decide (p ∈ ps)); [|done]. by destruct (proto_member p).
Qed.

Lemma resolve_step s c p cur :
  resolve (states s) p = State cur ->
  resolve (states (step s c)) p =
    State match c with
          | OnMessage now (Transcription e) =>
              if decide (p = provider e)
              then stored_state now (lastSpeechTimeRef s) e cur
              else cur
          | _ => cur
          end.
Proof.
  intros Hr. destruct c as [now [e|ps|m|] | now block]; simpl; try done.
  - destruct (decide (p = provider e)) as [->|Hne].
    + apply resolve_own. fold (onmessage now (Transcription e) s).
      by apply stored_lookup.
    + rewrite <- Hr. apply resolve_lookup_eq.
      fold (onmessage now (Transcription e) s). by apply other_lookup.
  - by rewrite resolve_config.
Qed.

Lemma step_keeps_entry s c p st :
  transcription_for p c = false ->
  states s !! p = Some st -> states (step s c) !! p = Some st.
Proof.
  intros Hc Hp. destruct c as [now [e|ps|m|] | now block]; simpl in *; try done.
  - fold (onmessage now (Transcription e) s). rewrite other_lookup; [done|].
    rewrite bool_decide_eq_false in Hc. congruence.
  - rewrite config_update_lookup. by rewrite Hp.
Qed.

Lemma run_keeps_entry cs s p st :
  Forall (fun c => transcription_for p c = false) cs ->
  states s !! p = Some st -> states (run cs s) !! p = Some st.
Proof.
  unfold run. revert s. induction cs as [|c cs IH]; intros s Hcs Hp; [done|].
  inversion_clear Hcs as [|? ? Hc Hrest]. cbn [foldl].
  apply IH; [done|]. by apply step_keeps_entry.
Qed.

Lemma run_app cs cs' s : run (cs ++ cs') s = run cs' (run cs s).
Proof. unfold run. apply foldl_app. Qed.

Lemma run_cons c cs s : run (c :: cs) s = run cs (step s c).
Proof. reflexivity. Qed.

Lemma stored_segments_prefix now speech e cur :
  segments cur `prefix_of` segments (stored_state now speech e cur).
Proof.
  unfold stored_state.
  destruct (is_final e); [destruct (truthy (trim (text e)))|]; simpl;
    try reflexivity.
  by apply prefix_app_r.
Qed.

Lemma step_extends_entry s c p st :
  states s !! p = Some st ->
  exists st', states (step s c) !! p = Some st'
              /\ segments st `prefix_of` segments st'.
Proof.
  intros Hp. destruct (transcription_for p c) eqn:Hc.
  - destruct c as [now [e|ps|m|] | now block]; simpl in Hc; try done.
    apply bool_decide_eq_true in Hc. subst p.
    cbn [step]. rewrite (stored_lookup now e s st (resolve_own _ _ _ Hp)).
    eexists. split; [reflexivity|]. apply stored_segments_prefix.
  - exists st. split; [by apply step_keeps_entry | reflexivity].
Qed.

Lemma dom_config ps prev :
  dom (config_update ps prev) =
    dom prev ∪ filter (fun p => proto_member p = false) (list_to_set ps).
Proof.
  apply set_eq. intros p.
  rewrite elem_of_union, elem_of_filter, !elem_of_dom, elem_of_list_to_set,
    config_update_lookup.
  destruct (prev !! p) as [st|] eqn:Hp.
  - split; [intros _; left|]; eauto.
  - destruct (decide (p ∈ ps)) as [Hin|Hin];
      destruct (proto_member p) eqn:Hm; split.
    + by intros [? ?].
    + intros [[? ?]|[? ?]]; done.
    + by right.
    + intros _. eauto.
    + by intros [? ?].
    + intros [[? ?]|[? ?]]; done.
    + by intros [? ?].
    + intros [[? ?]|[? ?]]; done.
Qed.

Lemma dom_step s c : dom (states (step s c)) = dom (states s) ∪ registers c.
Proof.
  unfold registers. destruct c as [now [e|ps|m|] | now block]; cbn [step mentions].
  - rewrite states_transcription.
    destruct (resolve (states s) (provider e)) as [cur|] eqn:Hr.
    + rewrite dom_insert_L. apply set_eq. intros q.
      rewrite !elem_of_union, elem_of_filter, elem_of_singleton, elem_of_dom.
      destruct (resolve_state _ _ _ Hr) as [Ho|(Hn & Hm & _)].
      * split; [intros [->|?]; left; eauto | intros [?|[_ ->]]; eauto].
      * split; [intros [->|?]; eauto | intros [?|[_ ->]]; eauto].
    + apply resolve_foreign in Hr as [Hn Hm].
      apply set_eq. intros q.
      rewrite elem_of_union, elem_of_filter, elem_of_singleton.
      split; [by left|]. intros [?|[Hq ->]]; [done | congruence].
  - apply dom_config.
  - simpl. apply set_eq. intros q.
    rewrite elem_of_union, elem_of_filter, elem_of_empty. tauto.
  - simpl. apply set_eq. intros q.
    rewrite elem_of_union, elem_of_filter, elem_of_empty. tauto.
  - simpl. apply set_eq. intros q.
    rewrite elem_of_union, elem_of_filter, elem_of_empty. tauto.
Qed.

End ReducerRuns.

(** ** Invariants kept by every callback *)

Section Invariant.

Variable good : ProviderState -> Prop.
Hypothesis good_fresh : good fresh_state.
Hypothesis good_stored :
  forall now speech e cur, good cur -> good (stored_state now speech e cur).

Lemma resolve_good (prev : gmap jsstring ProviderState) (p : jsstring) cur :
  map_Forall (fun _ => good) prev -> resolve prev p = State cur -> good cur.
Proof.
  intros H Hr. destruct (resolve_state _ _ _ Hr) as [Ho|(_ & _ & ->)].
  - by apply (H p).
  - apply good_fresh.
Qed.

Lemma register_good (next : gmap jsstring ProviderState) (p : jsstring) :
  map_Forall (fun _ => good) next -> map_Forall (fun _ => good) (register next p).
Proof.
  intros H. unfold register. destruct (js_get next p); try done.
  by apply map_Forall_insert_2.
Qed.

Lemma config_good (ps : list jsstring) (prev : gmap jsstring ProviderState) :
  map_Forall (fun _ => good) prev ->
  map_Forall (fun _ => good) (config_update ps prev).
Proof.
  unfold config_update. revert prev.
  induction ps as [|p ps IH]; intros prev H; [done|].
  cbn [foldl]. by apply IH, register_good.
Qed.

Lemma step_good (s : Session) (c : Callback) :
  map_Forall (fun _ => good) (states s) ->
  map_Forall (fun _ => good) (states (step s c)).
Proof.
  intros H. destruct c as [now [e|ps|m|] | now block]; cbn [step]; try done.
  - rewrite states_transcription.
    destruct (resolve (states s) (provider e)) as [cur|] eqn:Hr; [|done].
    apply map_Forall_insert_2; [|done].
    by apply good_stored, (resolve_good (states s) (provider e)).
  - by apply config_good.
Qed.

Lemma run_good (cs : list Callback) (s : Session) :
  map_Forall (fun _ => good) (states s) ->
  map_Forall (fun _ => good) (states (run cs s)).
Proof.
  unfold run. revert s. induction cs as [|c cs IH]; intros s H; [done|].
  cbn [foldl]. by apply IH, step_good.
Qed.

End Invariant.

(** ** Entries over runs *)

Section Entries.

Implicit Types (s : Session) (p : jsstring) (c : Callback) (cs : list Callback).

Lemma run_extends_entry cs s p st :
  states s !! p = Some st ->
  exists st', states (run cs s) !! p = Some st'
              /\ segments st `prefix_of` segments st'.
Proof.
  unfold run. revert s st. induction cs as [|c cs IH]; intros s st Hp.
  - exists st. by split.
  - cbn [foldl]. destruct (step_extends_entry s c p st Hp) as (st1 & H1 & Hpre1).
    destruct (IH _ _ H1) as (st2 & H2 & Hpre2).
    exists st2. split; [done|]. by etrans.
Qed.

Lemma run_dom cs s :
  dom (states (run cs s)) = dom (states s) ∪ ⋃ (registers <$> cs).
Proof.
  unfold run. revert s. induction cs as [|c cs IH]; intros s.
  - simpl. symmetry. apply union_empty_r_L.
  - cbn [foldl fmap list_fmap union_list foldr]. rewrite IH, dom_step.
    simpl. by rewrite (assoc_L (∪)).
Qed.

Lemma step_silent_entry s c p :
  transcription_for p c = false ->
  states s !! p = None ->
  states (step s c) !! p = None \/ states (step s c) !! p = Some fresh_state.
Proof.
  intros Hc Hp. destruct c as [now [e|ps|m|] | now block]; simpl in *; auto.
  - left. fold (onmessage now (Transcription e) s).
    rewrite other_lookup; [done|].
    rewrite bool_decide_eq_false in Hc. congruence.
  - rewrite config_update_lookup, Hp.
    destruct (decide (p ∈ ps)); auto. destruct (proto_member p); auto.
Qed.

Lemma run_silent_entry cs s p :
  Forall (fun c => transcription_for p c = false) cs ->
  states s !! p = None ->
  states (run cs s) !! p = None \/ states (run cs s) !! p = Some fresh_state.
Proof.
  unfold run. revert s. induction cs as [|c cs IH]; intros s Hcs Hp; [by left|].
  inversion_clear Hcs as [|? ? Hc Hrest]. cbn [foldl].
  destruct (step_silent_entry s c p Hc Hp) as [Hn|Hf].
  - by apply IH.
  - right. by apply (run_keeps_entry cs (step s c) p fresh_state).
Qed.

Lemma run_resolves cs s p cur :
  resolve (states s) p = State cur ->
  exists cur', resolve (states (run cs s)) p = State cur'.
Proof.
  unfold run. revert s cur. induction cs as [|c cs IH]; intros s cur Hr; [eauto|].
  cbn [foldl]. eapply IH. by apply resolve_step.
Qed.

Lemma handleTranscription_error now e s :
  error (handleTranscription now e s) = error s.
Proof. unfold handleTranscription. by destruct (transcription_update _ _ _ _). Qed.

Lemma step_agrees s1 s2 c :
  states s1 = states s2 ->
  lastSpeechTimeRef s1 = lastSpeechTimeRef s2 ->
  states (step s1 c) = states (step s2 c)
  /\ lastSpeechTimeRef (step s1 c) = lastSpeechTimeRef (step s2 c).
Proof.
  intros Hs Hm. destruct c as [now [e|ps|m|] | now block]; cbn [step].
  - rewrite !onmessage_keeps_speech. split; [|done].
    rewrite !states_transcription, Hs, Hm. done.
  - simpl. by rewrite Hs, Hm.
  - simpl. by rewrite Hs, Hm.
  - done.
  - simpl. by rewrite Hs, Hm.
Qed.

Lemma handle_all_agrees hs (k : Component) s :
  states (session k) = states s ->
  lastSpeechTimeRef (session k) = lastSpeechTimeRef s ->
  states (session (handle_all hs k)) = states (run (fired hs) s)
  /\ lastSpeechTimeRef (session (handle_all hs k)) =
       lastSpeechTimeRef (run (fired hs) s).
Proof.
  unfold handle_all, run. revert k s.
  induction hs as [|h hs IH]; intros k s Hs Hm; [done|].
  cbn [foldl]. destruct h as [| |cb| |[]|]; simpl; try (by apply IH).
  destruct (step_agrees (session k) s cb Hs Hm) as [Hs' Hm'].
  by apply IH.
Qed.

End Entries.

(** ** Blank texts *)

Section Blank.

Lemma trimStart_blank (t : jsstring) :
  trimStart t = [] <-> forallb is_white_space t = true.
Proof.
  induction t as [|c r IH]; simpl; [done|].
  destruct (is_white_space c); simpl; [done|]. split; discriminate.
Qed.

Lemma trimStart_head (t : jsstring) :
  trimStart t = [] \/
  exists c r, trimStart t = c :: r /\ is_white_space c = false.
Proof.
  induction t as [|c r IH]; simpl; [by left|].
  destruct (is_white_space c) eqn:Hc; [done|]. right. by exists c, r.
Qed.

Lemma forallb_rev (t : jsstring) :
  forallb is_white_space (rev t) = forallb is_white_space t.
Proof.
  induction t as [|c r IH]; [done|].
  simpl. rewrite forallb_app, IH. simpl.
  destruct (is_white_space c); destruct (forallb is_white_space r); done.
Qed.

Lemma trim_blank (t : jsstring) :
  truthy (trim t) = negb (forallb is_white_space t).
Proof.
  destruct (forallb is_white_space t) eqn:Hall; simpl.
  - apply trimStart_blank in Hall. unfold trim, trimEnd. by rewrite Hall.
  - destruct (truthy (trim t)) eqn:Ht; [done|]. exfalso.
    assert (Hn : trim t = []) by (by destruct (trim t)).
    unfold trim, trimEnd in Hn.
    apply (f_equal (@rev N)) in Hn. rewrite rev_involutive in Hn. simpl in Hn.
    apply trimStart_blank in Hn. rewrite forallb_rev in Hn.
    destruct (trimStart_head t) as [He | (c & r & He & Hc)].
    + apply trimStart_blank in He. congruence.
    + rewrite He in Hn. simpl in Hn. by rewrite Hc in Hn.
Qed.

End Blank.

(** ** Properties of the reducer over runs *)

(** X1: a provider's entry is never removed and its segment log only
    grows at the end: after any run of callbacks the stored state exists
    and the old segments are a prefix of the new ones. *)
Theorem segments_append_only cs s (p : jsstring) st :
  states s !! p = Some st ->
  exists st', states (run cs s) !! p = Some st'
              /\ segments st `prefix_of` segments st'.
Proof. apply run_extends_entry. Qed.

Lemma segments_append_only_witness :
  exists st', states (run Scenario.talk Samples.session_hel) !! js "B" = Some st'
              /\ [{| seg_text := js "ok"; seg_latency := 120 |}]
                   `prefix_of` segments st'.
Proof.
  exact (segments_append_only Scenario.talk Samples.session_hel (js "B")
           {| segments := [{| seg_text := js "ok"; seg_latency := 120 |}];
              partialText := []; latency := 120; lastUpdate := 800 |}
           eq_refl).
Defined.


(** X2: the providers listed after a run are those listed before together
    with every provider that a transcription or config event of the run
    names and that is not named like a member of [Object.prototype]; such
    a name is never added, and error events, unknown messages and audio
    blocks add nothing. *)
Theorem providers_after_run cs s :
  dom (states (run cs s)) = dom (states s) ∪ ⋃ (registers <$> cs).
Proof. apply run_dom. Qed.

(** X3: over any run, for a provider whose lookup gives a state, the
    number of segments grows by the number of final events with non-blank
    text addressed to it, and by nothing else. *)
Theorem segment_count_after_run cs s (p : jsstring) cur :
  resolve (states s) p = State cur ->
  exists cur',
    resolve (states (run cs s)) p = State cur'
    /\ length (segments cur') =
         (length (segments cur) +
          length (List.filter (commits_segment p) cs))%nat.
Proof.
  unfold run. revert s cur. induction cs as [|c cs IH]; intros s cur Hr.
  - exists cur. split; [done|]. simpl. lia.
  - cbn [foldl List.filter].
    destruct (IH _ _ (resolve_step s c p cur Hr)) as (cur' & Hr' & Hlen).
    exists cur'. split; [done|]. rewrite Hlen. clear Hlen Hr' IH.
    destruct c as [now [e|ps|m|] | now block]; simpl; try lia.
    unfold stored_state.
    destruct (decide (p = provider e)) as [->|Hne].
    + rewrite bool_decide_eq_true_2 by done. simpl.
      destruct (is_final e); simpl; [|lia].
      destruct (truthy (trim (text e))); simpl; [|lia].
      rewrite length_app. simpl. lia.
    + rewrite bool_decide_eq_false_2 by congruence. simpl. lia.
Qed.

Lemma segment_count_after_run_witness :
  exists cur',
    resolve (states (run Scenario.talk initial_session)) (js "deepgram")
      = State cur'
    /\ length (segments cur') =
         (length (segments fresh_state) +
          length (List.filter (commits_segment (js "deepgram")) Scenario.talk))%nat.
Proof.
  exact (segment_count_after_run Scenario.talk initial_session (js "deepgram")
           fresh_state eq_refl).
Defined.

(** X4: for a provider not named like a member of [Object.prototype],
    the partial text shown is decided by the latest transcription event
    addressed to it, whatever came before and whatever other callbacks
    follow: the event's text if it was not final, the empty string if it
    was; [lastUpdate] is the arrival time of that event. *)
Theorem latest_transcription_sets_partial cs now e cs' s :
  proto_member (provider e) = false ->
  Forall (fun c => transcription_for (provider e) c = false) cs' ->
  exists st,
    states (run (cs ++ OnMessage now (Transcription e) :: cs') s) !! provider e
      = Some st
    /\ partialText st = (if is_final e then [] else text e)
    /\ lastUpdate st = now.
Proof.
  intros Hm Hrest. rewrite run_app, run_cons.
  destruct (resolve_regular (states (run cs s)) (provider e) Hm) as [cur Hr].
  eexists. split; [|split].
  - apply run_keeps_entry; [done|]. cbn [step]. by apply stored_lookup.
  - unfold stored_state.
    destruct (is_final e); [destruct (truthy (trim (text e)))|]; reflexivity.
  - unfold stored_state.
    destruct (is_final e); [destruct (truthy (trim (text e)))|]; reflexivity.
Qed.

Lemma latest_transcription_sets_partial_witness :
  exists st,
    states (run ([OnMessage 1100 (Transcription (Samples.event "A" "he" false))] ++
                 OnMessage 1200 (Transcription (Samples.event "A" "hello wor" false)) ::
                 [OnMessage 1210 (Transcription (Samples.event "B" "x" true));
                  OnMessage 1220 (Config [js "A"; js "C"]);
                  OnBlock 1230 [Number.Fin (1 # 2)]])
              Samples.session_hel) !! js "A" = Some st
    /\ partialText st = js "hello wor"
    /\ lastUpdate st = 1200.
Proof.
  refine (latest_transcription_sets_partial
            [OnMessage 1100 (Transcription (Samples.event "A" "he" false))]
            1200 (Samples.event "A" "hello wor" false)
            [OnMessage 1210 (Transcription (Samples.event "B" "x" true));
             OnMessage 1220 (Config [js "A"; js "C"]);
             OnBlock 1230 [Number.Fin (1 # 2)]]
            Samples.session_hel eq_refl _).
  repeat constructor.
Defined.

(** X5: a config event and a transcription event for a provider whose
    lookup gives a state commute as far as the entries go: every provider
    has the same entry whichever of the two is applied first, because a
    missing provider is resolved by the transcription to the same fresh
    state the config would insert.  The order in which the keys were
    inserted, hence the order of the columns, is not part of the
    statement. *)
Theorem config_transcription_commute now now' ps e s cur (p : jsstring) :
  resolve (states s) (provider e) = State cur ->
  states (onmessage now' (Config ps) (onmessage now (Transcription e) s)) !! p =
  states (onmessage now (Transcription e) (onmessage now' (Config ps) s)) !! p.
Proof.
  intros Hr. rewrite (onmessage_lookup now e (onmessage now' (Config ps) s)).
  cbn [onmessage states lastSpeechTimeRef].
  rewrite resolve_config, Hr, !config_update_lookup.
  fold (onmessage now (Transcription e) s). rewrite onmessage_lookup, Hr.
  destruct (decide (p = provider e)); [done|].
  reflexivity.
Qed.

Lemma config_transcription_commute_witness :
  states (onmessage 20 (Config [js "D"])
            (onmessage 10 (Transcription (Samples.event "C" "hi" false))
               initial_session)) !! js "C" =
  states (onmessage 10 (Transcription (Samples.event "C" "hi" false))
            (onmessage 20 (Config [js "D"]) initial_session)) !! js "C".
Proof.
  exact (config_transcription_commute 10 20 [js "D"]
           (Samples.event "C" "hi" false) initial_session fresh_state
           (js "C") eq_refl).
Defined.

(** X6: transcription events of two different providers, each with a
    lookup that gives a state, commute as far as the entries go: every
    provider has the same entry whichever event is applied first.  The
    order in which the keys were inserted is not part of the statement. *)
Theorem transcriptions_commute now1 now2 e1 e2 s cur1 cur2 (p : jsstring) :
  provider e1 ≠ provider e2 ->
  resolve (states s) (provider e1) = State cur1 ->
  resolve (states s) (provider e2) = State cur2 ->
  states (onmessage now1 (Transcription e1)
            (onmessage now2 (Transcription e2) s)) !! p =
  states (onmessage now2 (Transcription e2)
            (onmessage now1 (Transcription e1) s)) !! p.
Proof.
  intros Hne H1 H2.
  assert (H1' : resolve (states (onmessage now2 (Transcription e2) s))
                  (provider e1) = State cur1).
  { rewrite <- H1. apply resolve_lookup_eq. by apply other_lookup. }
  assert (H2' : resolve (states (onmessage now1 (Transcription e1) s))
                  (provider e2) = State cur2).
  { rewrite <- H2. apply resolve_lookup_eq. apply other_lookup. congruence. }
  rewrite (onmessage_lookup now1 e1 (onmessage now2 (Transcription e2) s)), H1'.
  rewrite (onmessage_lookup now2 e2 (onmessage now1 (Transcription e1) s)), H2'.
  rewrite !onmessage_keeps_speech, !onmessage_lookup, H1, H2.
  destruct (decide (p = provider e1)) as [Hp1|Hp1];
    destruct (decide (p = provider e2)) as [Hp2|Hp2];
    first [congruence | done].
Qed.

Lemma transcriptions_commute_witness :
  states (onmessage 1300 (Transcription (Samples.event "C" "hello" true))
            (onmessage 1400 (Transcription (Samples.event "B" "hi" false))
               Samples.session_hel)) !! js "C" =
  states (onmessage 1400 (Transcription (Samples.event "B" "hi" false))
            (onmessage 1300 (Transcription (Samples.event "C" "hello" true))
               Samples.session_hel)) !! js "C".
Proof.
  refine (transcriptions_commute 1300 1400 (Samples.event "C" "hello" true)
            (Samples.event "B" "hi" false) Samples.session_hel
            fresh_state
            {| segments := [{| seg_text := js "ok"; seg_latency := 120 |}];
               partialText := []; latency := 120; lastUpdate := 800 |}
            (js "C") _ eq_refl eq_refl).
  vm_compute. discriminate.
Defined.

(** X7: the entries a config event leaves depend only on the set of
    providers it announces: two provider arrays with the same members, in
    any order and with any repetitions, give every provider the same
    entry, and so do two config events applied in either order.  The order
    in which the keys were inserted is not part of the statement. *)
Theorem config_depends_on_members now now' ps ps' s :
  (forall p, p ∈ ps <-> p ∈ ps') ->
  (forall q, states (onmessage now (Config ps) s) !! q =
             states (onmessage now' (Config ps') s) !! q)
  /\ (forall qs q,
        states (onmessage now (Config ps) (onmessage now' (Config qs) s)) !! q =
        states (onmessage now' (Config qs) (onmessage now (Config ps) s)) !! q).
Proof.
  intros Hmem. split.
  - intros q. simpl. rewrite !config_update_lookup.
    destruct (states s !! q); [done|].
    destruct (decide (q ∈ ps)) as [Hin|Hin];
      destruct (decide (q ∈ ps')) as [Hin'|Hin']; try done.
    + by apply Hmem in Hin.
    + by apply Hmem in Hin'.
  - intros qs q. simpl. rewrite !config_update_lookup.
    destruct (states s !! q); [done|].
    destruct (decide (q ∈ ps)); destruct (decide (q ∈ qs));
      destruct (proto_member q); done.
Qed.

Lemma config_depends_on_members_witness :
  states (onmessage 10 (Config [js "A"; js "B"; js "A"]) initial_session)
    !! js "B" =
  states (onmessage 20 (Config [js "B"; js "A"]) initial_session) !! js "B".
Proof.
  apply (config_depends_on_members 10 20 [js "A"; js "B"; js "A"]
           [js "B"; js "A"] initial_session).
  intros p. rewrite !elem_of_cons, elem_of_nil. tauto.
Defined.

(** ** Invariants of every reachable state *)

Lemma stored_latencies_nonnegative now speech e cur :
  latencies_nonnegative cur ->
  latencies_nonnegative (stored_state now speech e cur).
Proof.
  intros [Hl Hs]. unfold stored_state, latencies_nonnegative.
  destruct (is_final e); [destruct (truthy (trim (text e)))|]; simpl;
    try (by split).
  split; [lia|]. apply Forall_app. split; [done|].
  constructor; [simpl; lia | constructor].
Qed.

Lemma stored_segments_not_blank now speech e cur :
  segments_not_blank cur -> segments_not_blank (stored_state now speech e cur).
Proof.
  intros Hs. unfold stored_state, segments_not_blank.
  destruct (is_final e); [destruct (truthy (trim (text e))) eqn:Ht|]; simpl;
    try done.
  apply Forall_app. split; [done|]. by repeat constructor.
Qed.

Lemma stored_latency_is_latest now speech e cur :
  latency_is_latest cur -> latency_is_latest (stored_state now speech e cur).
Proof.
  unfold stored_state, latency_is_latest. intros Hl.
  destruct (is_final e); [destruct (truthy (trim (text e)))|]; simpl;
    try done.
  by rewrite last_snoc.
Qed.

(** X8: no latency is ever negative: in every state reachable from the
    initial one, each provider's latency field and the latency of each of
    its segments are at least 0, also when the speech marker is later than
    the event's arrival time. *)
Theorem reachable_latencies_nonnegative cs (p : jsstring) st :
  states (run cs initial_session) !! p = Some st ->
  0 <= latency st /\ Forall (fun seg => 0 <= seg_latency seg) (segments st).
Proof.
  intros Hp.
  apply (run_good latencies_nonnegative) with (cs := cs) (s := initial_session)
    in Hp; [done| |apply stored_latencies_nonnegative|apply map_Forall_empty].
  split; [done | constructor].
Qed.

Lemma reachable_latencies_nonnegative_witness :
  0 <= 300 /\ Forall (fun seg => 0 <= seg_latency seg)
                [{| seg_text := js "hi there"; seg_latency := 300 |}].
Proof.
  exact (reachable_latencies_nonnegative Scenario.talk (js "deepgram")
           {| segments := [{| seg_text := js "hi there"; seg_latency := 300 |}];
              partialText := []; latency := 300; lastUpdate := 1300 |}
           eq_refl).
Defined.

(** X9: no segment is ever blank: in every state reachable from the
    initial one, the text of each stored segment is non-empty after
    trimming. *)
Theorem reachable_segments_not_blank cs (p : jsstring) st :
  states (run cs initial_session) !! p = Some st ->
  Forall (fun seg => trim (seg_text seg) ≠ []) (segments st).
Proof.
  intros Hp.
  apply (run_good segments_not_blank) with (cs := cs) (s := initial_session)
    in Hp; [|constructor|apply stored_segments_not_blank|apply map_Forall_empty].
  eapply Forall_impl; [exact Hp|]. simpl. intros seg. apply truthy_nonempty.
Qed.

Lemma reachable_segments_not_blank_witness :
  Forall (fun seg => trim (seg_text seg) ≠ [])
    [{| seg_text := js "hi there"; seg_latency := 300 |}].
Proof.
  exact (reachable_segments_not_blank Scenario.talk (js "deepgram")
           {| segments := [{| seg_text := js "hi there"; seg_latency := 300 |}];
              partialText := []; latency := 300; lastUpdate := 1300 |}
           eq_refl).
Defined.

(** X10: the latency shown in a provider's header is the latency of its
    latest segment: in every state reachable from the initial one, the
    latency field equals the latency of the last segment, and is 0 while
    the provider has no segment. *)
Theorem reachable_latency_is_latest cs (p : jsstring) st :
  states (run cs initial_session) !! p = Some st ->
  latency st = default 0 (seg_latency <$> last (segments st)).
Proof.
  intros Hp.
  by apply (run_good latency_is_latest) with (cs := cs) (s := initial_session)
    in Hp; [|reflexivity|apply stored_latency_is_latest|apply map_Forall_empty].
Qed.

Lemma reachable_latency_is_latest_witness :
  500 = default 0 (seg_latency <$>
          last [{| seg_text := js "hi there."; seg_latency := 500 |}]).
Proof.
  exact (reachable_latency_is_latest Scenario.talk (js "openai")
           {| segments := [{| seg_text := js "hi there."; seg_latency := 500 |}];
              partialText := []; latency := 500; lastUpdate := 1500 |}
           eq_refl).
Defined.

(** ** Properties of the encoder and of the tracker *)

Section Amplitude.

Import Number.

Lemma quot_ge_iff a d k : 0 <= a -> 0 < d -> (k <= a ÷ d <-> k * d <= a).
Proof.
  intros Ha Hd. rewrite Z.quot_div_nonneg by lia. split; intros H.
  - pose proof (Z.mul_div_le a d Hd). nia.
  - apply Z.div_le_lower_bound; lia.
Qed.

Lemma quot_frac_mono n1 d1 n2 d2 :
  0 < d1 -> 0 < d2 -> n1 * d2 <= n2 * d1 -> n1 ÷ d1 <= n2 ÷ d2.
Proof.
  intros H1 H2 H. destruct (Z.le_gt_cases 0 n1) as [Hn1|Hn1].
  - assert (0 <= n2) by nia.
    apply quot_ge_iff; [done|done|].
    rewrite Z.quot_div_nonneg by lia.
    pose proof (Z.mul_div_le n1 d1 H1). nia.
  - destruct (Z.le_gt_cases 0 n2) as [Hn2|Hn2].
    + transitivity 0.
      * pose proof (Z.quot_opp_l n1 d1 ltac:(lia)).
        pose proof (Z.quot_pos (- n1) d1). lia.
      * apply Z.quot_pos; lia.
    + pose proof (Z.quot_opp_l n1 d1 ltac:(lia)) as Ho1.
      pose proof (Z.quot_opp_l n2 d2 ltac:(lia)) as Ho2.
      assert (Hgoal : (- n2) ÷ d2 <= (- n1) ÷ d1); [|lia].
      apply quot_ge_iff; [lia|done|].
      rewrite Z.quot_div_nonneg by lia.
      pose proof (Z.mul_div_le (- n2) d2 H2). nia.
Qed.

Lemma trunc_mono (a b : Q) : (a <= b)%Q -> trunc a <= trunc b.
Proof.
  unfold Qle, trunc. intros H. apply quot_frac_mono; [done|done|lia].
Qed.

Lemma spec_clamp_mono (a b : Q) : (a <= b)%Q -> (spec_clamp a <= spec_clamp b)%Q.
Proof.
  intros H. unfold spec_clamp.
  destruct (Qle_bool 1 a) eqn:Ha1; destruct (Qle_bool 1 b) eqn:Hb1;
    destruct (Qle_bool a (-1)) eqn:Ha2; destruct (Qle_bool b (-1)) eqn:Hb2;
    repeat match goal with
           | H : Qle_bool _ _ = true |- _ => apply Qle_bool_iff in H
           | H : Qle_bool _ _ = false |- _ =>
               apply not_true_iff_false in H; rewrite Qle_bool_iff in H;
               apply Qnot_le_lt in H
           end;
    unfold Qle, Qlt in *; simpl in *; nia.
Qed.

Lemma spec_encode_mono (a b : Q) : (a <= b)%Q -> spec_encode a <= spec_encode b.
Proof.
  intros H. apply spec_clamp_mono in H. unfold spec_encode.
  set (x := spec_clamp a) in *. set (y := spec_clamp b) in *.
  destruct (Qle_bool 0 x) eqn:Hx; destruct (Qle_bool 0 y) eqn:Hy; simpl.
  - apply trunc_mono. by apply Qmult_le_compat_r.
  - exfalso. apply Qle_bool_iff in Hx.
    apply not_true_iff_false in Hy. apply Hy, Qle_bool_iff.
    by apply Qle_trans with x.
  - transitivity 0.
    + apply (trunc_negative_scaled x 32768); [lia|].
      apply not_true_iff_false in Hx. rewrite Qle_bool_iff in Hx.
      apply Qnot_le_lt in Hx. unfold Qlt in Hx. simpl in Hx. lia.
    + apply Qle_bool_iff in Hy. unfold Qle in Hy. simpl in Hy.
      unfold trunc. simpl. apply Z.quot_pos; nia.
  - apply trunc_mono. by apply Qmult_le_compat_r.
Qed.

Lemma loud_finite q :
  (Z.abs (spec_encode q) >? 500) =
    Qle_bool (501 # 32767) q || Qle_bool q (-501 # 32768).
Proof.
  destruct q as [n d]. unfold spec_encode, spec_clamp, Qle_bool, trunc.
  cbn -[Z.mul Z.leb Z.quot Z.gtb Z.abs].
  destruct (Z.leb_spec (1 * Z.pos d) (n * 1)) as [H1|H1];
    cbn -[Z.mul Z.leb Z.quot Z.gtb Z.abs].
  { destruct (Z.leb_spec (501 * Z.pos d) (n * 32767)); [done | lia]. }
  destruct (Z.leb_spec (n * 1) (-1 * Z.pos d)) as [H2|H2];
    cbn -[Z.mul Z.leb Z.quot Z.gtb Z.abs].
  { destruct (Z.leb_spec (n * 32768) (-501 * Z.pos d)); [|lia].
    by rewrite orb_true_r. }
  rewrite Pos.mul_1_r.
  destruct (Z.leb_spec (0 * Z.pos d) (n * 1)) as [H0|H0];
    cbn -[Z.mul Z.leb Z.quot Z.gtb Z.abs].
  - assert (Hq : 0 <= (n * 32767) ÷ Z.pos d) by (apply Z.quot_pos; lia).
    rewrite Z.abs_eq by done.
    pose proof (quot_ge_iff (n * 32767) (Z.pos d) 501 ltac:(lia) ltac:(lia)) as Hiff.
    destruct (Z.leb_spec (501 * Z.pos d) (n * 32767)) as [Ha|Ha];
      destruct (Z.leb_spec (n * 32768) (-501 * Z.pos d)) as [Hb|Hb];
      destruct (Z.gtb_spec ((n * 32767) ÷ Z.pos d) 500); simpl; try done; lia.
  - assert (Hq : (n * 32768) ÷ Z.pos d = - ((- n * 32768) ÷ Z.pos d)).
    { rewrite <- Z.quot_opp_l by lia. f_equal. lia. }
    assert (Hp : 0 <= (- n * 32768) ÷ Z.pos d) by (apply Z.quot_pos; lia).
    rewrite Hq, Z.abs_opp, Z.abs_eq by done.
    pose proof (quot_ge_iff (- n * 32768) (Z.pos d) 501 ltac:(lia) ltac:(lia)) as Hiff.
    destruct (Z.leb_spec (501 * Z.pos d) (n * 32767)) as [Ha|Ha];
      destruct (Z.leb_spec (n * 32768) (-501 * Z.pos d)) as [Hb|Hb];
      destruct (Z.gtb_spec ((- n * 32768) ÷ Z.pos d) 500); simpl; try done; lia.
Qed.

Lemma loud_sample x : (Z.abs (encode_sample x) >? 500) = is_loud_sample x.
Proof.
  destruct x as [|[]|q]; try reflexivity.
  rewrite encode_sample_finite. apply loud_finite.
Qed.

Lemma peak_loud block :
  (peak block >? 500) = existsb is_loud_sample block.
Proof.
  unfold peak. induction block as [|x rest IH]; [reflexivity|].
  cbn [List.map foldr existsb]. rewrite <- IH, <- loud_sample.
  set (a := Z.abs (encode_sample x)).
  set (b := foldr Z.max 0 (List.map (fun x => Z.abs (encode_sample x)) rest)).
  destruct (Z.gtb_spec (Z.max a b) 500); destruct (Z.gtb_spec a 500);
    destruct (Z.gtb_spec b 500); simpl; try done; lia.
Qed.

Lemma peak_upper block : peak block <= 32768.
Proof.
  unfold peak. induction block as [|x rest IH]; simpl; [lia|].
  pose proof (encode_sample_range x). lia.
Qed.

End Amplitude.

Lemma run_loud_then_quiet cs now block cs' s :
  loud block ->
  Forall quiet cs' ->
  lastSpeechTimeRef (run (cs ++ OnBlock now block :: cs') s) = now.
Proof.
  intros Hl Hq. rewrite run_app. unfold run at 1. cbn [foldl].
  fold (run cs' (step (run cs s) (OnBlock now block))).
  rewrite run_quiet_keeps_speech by done. simpl. by apply observe_loud.
Qed.

(** X11: the encoder is monotone on finite samples: a larger sample never
    encodes to a smaller integer. *)
Theorem encode_sample_monotone (a b : Q) :
  (a <= b)%Q ->
  encode_sample (Number.Fin a) <= encode_sample (Number.Fin b).
Proof.
  intros H. rewrite !encode_sample_finite. by apply spec_encode_mono.
Qed.

Lemma encode_sample_monotone_witness :
  encode_sample (Number.Fin (-1 # 3)) <= encode_sample (Number.Fin (2 # 5)).
Proof.
  apply encode_sample_monotone. vm_compute. discriminate.
Defined.

(** X12: the marker is replaced exactly when the block holds a loud
    sample, whatever the block's length and order: an infinite sample, or
    a finite one at least 501/32767 or at most -501/32768; NaN samples and
    an empty block never replace it. *)
Theorem tracker_fires_on_loud_sample now block speech :
  observe now block speech =
    if existsb is_loud_sample block then now else speech.
Proof.
  unfold observe, threshold. by rewrite max_amplitude_peak, peak_loud.
Qed.

Section FullScale.

Import Number.

Lemma full_negative_finite q :
  (spec_encode q =? -32768) = Qle_bool q (-1).
Proof.
  destruct (Qle_bool q (-1)) eqn:Hq.
  - rewrite (spec_encode_below q Hq). reflexivity.
  - apply Z.eqb_neq. unfold spec_encode, spec_clamp. rewrite Hq.
    destruct (Qle_bool 1 q) eqn:H1; [vm_compute; discriminate|].
    destruct q as [n d]. unfold Qle_bool, trunc in *.
    cbn -[Z.mul Z.leb Z.quot] in *. rewrite Pos.mul_1_r.
    apply Z.leb_gt in Hq, H1.
    destruct (Z.leb_spec (0 * Z.pos d) (n * 1)) as [H0|H0];
      cbn -[Z.mul Z.leb Z.quot].
    + pose proof (Z.quot_pos (n * 32767) (Z.pos d)). lia.
    + pose proof (Z.quot_opp_l (n * 32768) (Z.pos d) ltac:(lia)) as Ho.
      pose proof (quot_ge_iff (- (n * 32768)) (Z.pos d) 32768
                    ltac:(lia) ltac:(lia)) as Hiff.
      lia.
Qed.

Lemma full_negative_sample x :
  (encode_sample x =? -32768) = is_full_negative x.
Proof.
  destruct x as [|[]|q]; try reflexivity.
  rewrite encode_sample_finite. apply full_negative_finite.
Qed.

Lemma peak_full_scale block :
  peak block = 32768 <-> existsb is_full_negative block = true.
Proof.
  unfold peak. induction block as [|x rest IH]; [done|].
  cbn [List.map foldr existsb]. rewrite orb_true_iff, <- IH, <- full_negative_sample.
  pose proof (encode_sample_range x) as Hx.
  pose proof (peak_upper rest) as Hr. unfold peak in Hr.
  rewrite Z.eqb_eq. lia.
Qed.

End FullScale.

(** X13: the maximum amplitude of a block lies between 0 and 32768, and
    it is 32768, one more than the largest positive sample value, exactly
    when the block holds, at any place, a sample that is -Infinity or
    finite and at most -1. *)
Theorem max_amplitude_bounds block :
  0 <= max_amplitude block <= 32768
  /\ (max_amplitude block = 32768 <-> existsb is_full_negative block = true).
Proof.
  rewrite !max_amplitude_peak. split.
  - split; [apply peak_nonneg | apply peak_upper].
  - apply peak_full_scale.
Qed.

(** X14: after any run, the marker is the clock reading of the latest
    audio callback whose block exceeded the threshold; messages and
    quieter blocks after it leave it alone. *)
Theorem marker_is_latest_loud_reading cs now block cs' s :
  loud block ->
  Forall quiet cs' ->
  lastSpeechTimeRef (run (cs ++ OnBlock now block :: cs') s) = now.
Proof. apply run_loud_then_quiet. Qed.

Lemma marker_is_latest_loud_reading_witness :
  lastSpeechTimeRef
    (run ([OnBlock 900 [Number.Fin (-1 # 2)]] ++
          OnBlock 1000 [Number.Fin (1 # 2)] ::
          [OnBlock 1020 [Number.Fin (1 # 100)];
           OnMessage 1030 (Error (js "x"))]) initial_session) = 1000.
Proof.
  refine (marker_is_latest_loud_reading
            [OnBlock 900 [Number.Fin (-1 # 2)]] 1000 [Number.Fin (1 # 2)]
            [OnBlock 1020 [Number.Fin (1 # 100)];
             OnMessage 1030 (Error (js "x"))] initial_session _ _).
  - vm_compute. reflexivity.
  - repeat constructor. vm_compute. discriminate.
Defined.

(** X15: for a provider not named like a member of [Object.prototype],
    the latency recorded by a final event with non-blank text is the time
    from the latest loud block to the event's arrival: when, at the moment
    the state update is computed, the latest block above the threshold was
    read at [t0], only quieter blocks and messages have come since, and
    the event arrived at [now >= t0], both the latency field and the
    appended segment carry [now - t0]. *)
Theorem latency_is_time_since_loud_block cs t0 block cs' now e s :
  loud block ->
  Forall quiet cs' ->
  is_final e = true ->
  truthy (trim (text e)) = true ->
  t0 <= now ->
  proto_member (provider e) = false ->
  exists st,
    states (onmessage now (Transcription e)
              (run (cs ++ OnBlock t0 block :: cs') s)) !! provider e = Some st
    /\ latency st = now - t0
    /\ last (segments st) =
         Some {| seg_text := text e; seg_latency := now - t0 |}.
Proof.
  intros Hl Hq Hf Ht Hle Hm.
  pose proof (run_loud_then_quiet cs t0 block cs' s Hl Hq) as Hs.
  destruct (resolve_regular (states (run (cs ++ OnBlock t0 block :: cs') s))
              (provider e) Hm) as [cur Hr].
  eexists. split; [apply (stored_lookup now e _ cur Hr)|].
  unfold stored_state. rewrite Hf, Ht, Hs. simpl. split; [lia|].
  rewrite last_snoc. do 2 f_equal. lia.
Qed.

Lemma latency_is_time_since_loud_block_witness :
  exists st,
    states (onmessage 1250 (Transcription (Samples.event "A" "hello" true))
              (run ([] ++ OnBlock 1000 [Number.Fin (1 # 2)] ::
                    [OnBlock 1020 [Number.Fin 0]]) initial_session))
      !! js "A" = Some st
    /\ latency st = 1250 - 1000
    /\ last (segments st) =
         Some {| seg_text := js "hello"; seg_latency := 1250 - 1000 |}.
Proof.
  refine (latency_is_time_since_loud_block [] 1000 [Number.Fin (1 # 2)]
            [OnBlock 1020 [Number.Fin 0]] 1250
            (Samples.event "A" "hello" true) initial_session
            _ _ eq_refl eq_refl _ eq_refl).
  - vm_compute. reflexivity.
  - repeat constructor. vm_compute. discriminate.
  - lia.
Defined.

(** ** Properties of what is rendered *)

(** X16: the grid has one column per listed provider, and at least one:
    after a run from the initial state the number of columns is the
    number of distinct providers that its transcription and config events
    name and that are not named like a member of [Object.prototype], and
    the placeholder for missing providers is shown exactly when the run
    has named no such provider. *)
Theorem grid_counts_named_providers cs :
  gridColumns (states (run cs initial_session)) =
    Z.max 1 (Z.of_nat (size (⋃ (registers <$> cs))))
  /\ (waitingForProviders (states (run cs initial_session)) = true <->
      Forall (fun c => registers c = ∅) cs).
Proof.
  assert (Hdom : dom (states (run cs initial_session)) = ⋃ (registers <$> cs)).
  { rewrite run_dom. simpl. rewrite dom_empty_L. apply union_empty_l_L. }
  assert (Hsize : size (states (run cs initial_session)) =
                  size (⋃ (registers <$> cs))).
  { by rewrite <- Hdom, size_dom. }
  split.
  - unfold gridColumns. by rewrite Hsize.
  - unfold waitingForProviders. rewrite Hsize, Nat.eqb_eq, size_empty_iff.
    rewrite leibniz_equiv_iff, empty_union_list_L, Forall_fmap. reflexivity.
Qed.

(** X17: a provider not named like a member of [Object.prototype] is
    shown as active exactly during the second that follows the arrival of
    its latest transcription event: with that event, arrived at [now],
    applied, the dot rendered at time [t] is green if and only if
    [t - now < 1000]; and the partial line is shown if and only if that
    event was not final and carried a non-empty text. *)
Theorem active_during_following_second cs now e cs' s t :
  proto_member (provider e) = false ->
  Forall (fun c => transcription_for (provider e) c = false) cs' ->
  exists st,
    states (run (cs ++ OnMessage now (Transcription e) :: cs') s) !! provider e
      = Some st
    /\ (isActive t st = true <-> t - now < 1000)
    /\ showsPartial st = negb (is_final e) && truthy (text e).
Proof.
  intros Hm Hrest. rewrite run_app, run_cons.
  destruct (resolve_regular (states (run cs s)) (provider e) Hm) as [cur Hr].
  eexists. split; [|split].
  - apply run_keeps_entry; [done|]. cbn [step]. by apply stored_lookup.
  - unfold isActive.
    replace (lastUpdate _) with now.
    + destruct (Z.gtb_spec now (t - 1000)); split; try done; lia.
    + unfold stored_state.
      destruct (is_final e); [destruct (truthy (trim (text e)))|]; reflexivity.
  - unfold showsPartial, stored_state.
    destruct (is_final e); [destruct (truthy (trim (text e)))|]; reflexivity.
Qed.

Lemma active_during_following_second_witness :
  exists st,
    states (run ([] ++ OnMessage 5000 (Transcription (Samples.event "A" "he" false)) ::
                 [OnMessage 5400 (Transcription (Samples.event "B" "x" true))])
              Samples.session_hel) !! js "A" = Some st
    /\ (isActive 5999 st = true <-> 5999 - 5000 < 1000)
    /\ showsPartial st = negb false && truthy (js "he").
Proof.
  refine (active_during_following_second [] 5000
            (Samples.event "A" "he" false)
            [OnMessage 5400 (Transcription (Samples.event "B" "x" true))]
            Samples.session_hel 5999 eq_refl _).
  repeat constructor.
Defined.

(** X18: a provider that has been announced but has not yet sent a
    transcription event still has the fresh state: after a run from the
    initial state without transcription events for it, its entry, when
    listed, shows "Waiting for speech...", no partial line, latency 0,
    and an inactive dot at any render time from 1000 on. *)
Theorem announced_provider_waits cs (p : jsstring) st t :
  Forall (fun c => transcription_for p c = false) cs ->
  states (run cs initial_session) !! p = Some st ->
  1000 <= t ->
  st = fresh_state
  /\ waitingForSpeech st = true
  /\ showsPartial st = false
  /\ isActive t st = false.
Proof.
  intros Hcs Hp Ht.
  destruct (run_silent_entry cs initial_session p Hcs (lookup_empty p))
    as [Hn|Hf]; [congruence|].
  assert (st = fresh_state) as -> by congruence.
  repeat split. unfold isActive. simpl.
  destruct (Z.gtb_spec 0 (t - 1000)); [lia | done].
Qed.

Lemma announced_provider_waits_witness :
  fresh_state = fresh_state
  /\ waitingForSpeech fresh_state = true
  /\ showsPartial fresh_state = false
  /\ isActive 1700000000000 fresh_state = false.
Proof.
  refine (announced_provider_waits
            [OnMessage 10 (Config [js "A"; js "B"]);
             OnMessage 20 (Transcription (Samples.event "B" "x" true))]
            (js "A") fresh_state 1700000000000 _ eq_refl _).
  - repeat constructor.
  - lia.
Defined.

(** X19: once a provider has a segment, "Waiting for speech..." never
    comes back for it: after any further run its entry still exists and
    the placeholder is not shown. *)
Theorem placeholder_gone_for_good cs s (p : jsstring) st :
  states s !! p = Some st ->
  segments st ≠ [] ->
  exists st', states (run cs s) !! p = Some st'
              /\ waitingForSpeech st' = false.
Proof.
  intros Hp Hne.
  destruct (run_extends_entry cs s p st Hp) as (st' & Hp' & [k Hk]).
  exists st'. split; [done|]. unfold waitingForSpeech. rewrite Hk.
  destruct (segments st); [done|]. reflexivity.
Qed.

Lemma placeholder_gone_for_good_witness :
  exists st', states (run Scenario.talk Samples.session_hel) !! js "B" = Some st'
              /\ waitingForSpeech st' = false.
Proof.
  refine (placeholder_gone_for_good Scenario.talk Samples.session_hel (js "B")
            {| segments := [{| seg_text := js "ok"; seg_latency := 120 |}];
               partialText := []; latency := 120; lastUpdate := 800 |}
            eq_refl _).
  discriminate.
Defined.

(** ** Properties of the worklet and of the handlers *)

(** X20: the processor always asks to be kept alive.  When input 0 has a
    channel 0, the main thread's callback runs on that channel alone: it
    updates the marker, and sends a frame exactly when the socket is
    open, the frame holding one 16-bit value per sample of the channel;
    with the socket missing, connecting, closing or closed nothing is
    sent.  Without such a channel nothing is posted, nothing is sent and
    the state is untouched. *)
Theorem quantum_posts_first_channel now ws inputs s :
  (process inputs).1 = true
  /\ match inputs with
     | (ch :: _) :: _ =>
         (quantum now ws inputs s).1 = (worklet_onmessage now ch s).1
         /\ (quantum now ws inputs s).2 =
              (if socket_open ws then Some (List.map encode_sample ch) else None)
         /\ length (List.map encode_sample ch) = length ch
         /\ Forall (fun v => -32768 <= v <= 32767) (List.map encode_sample ch)
     | _ => quantum now ws inputs s = (s, None)
     end.
Proof.
  destruct inputs as [|[|ch rest] more]; simpl; try done.
  split; [done|]. split; [done|]. split; [|split].
  - unfold worklet_send, encode. by rewrite scan_frame.
  - by rewrite length_map.
  - apply Forall_forall. intros v Hv.
    apply list_elem_of_In, in_map_iff in Hv as (x & <- & _).
    apply encode_sample_range.
Qed.

(** X21: only [ws.onmessage] and the worklet callback touch the
    transcripts and the speech marker: after any sequence of handlers
    (connection opened or failed, recording started, failed or stopped)
    they are what the message and audio callbacks among them alone would
    have produced. *)
Theorem handlers_keep_transcripts hs c :
  states (session (handle_all hs c)) = states (run (fired hs) (session c))
  /\ lastSpeechTimeRef (session (handle_all hs c)) =
       lastSpeechTimeRef (run (fired hs) (session c)).
Proof.
  apply handle_all_agrees; reflexivity.
Qed.

(** X22: the error banner shows the latest write to it: after any
    sequence of handlers, the error is what the last handler that writes
    one has written: the message of a server error, one of the two fixed
    messages of a failed connection or microphone, or nothing after the
    connection opened or a recording was requested. *)
Theorem error_is_latest_write hs h hs' c w :
  error_write h = Some w ->
  Forall (fun h' => error_write h' = None) hs' ->
  error (session (handle_all (hs ++ h :: hs') c)) = w.
Proof.
  intros Hw Hrest. unfold handle_all. rewrite foldl_app. cbn [foldl].
  set (c1 := foldl handle c hs). clearbody c1.
  assert (H1 : error (session (handle c1 h)) = w).
  { destruct h as [| |[now [e|ps|m|]|now block]| |[]|]; simpl in *;
    rewrite ?handleTranscription_error; congruence. }
  revert H1. generalize (handle c1 h). clear Hw.
  induction hs' as [|h' hs' IH]; intros c2 H2; [done|].
  inversion_clear Hrest as [|? ? Hh' Hrest']. cbn [foldl].
  apply IH; [done|]. rewrite <- H2.
  destruct h' as [| |[now [e|ps|m|]|now block]| |[]|]; simpl in *;
    rewrite ?handleTranscription_error; congruence.
Qed.

Lemma error_is_latest_write_witness :
  error (session (handle_all
           ([WsError] ++ Fire (OnMessage 10 (Error (js "quota exceeded"))) ::
            [Fire (OnMessage 20 (Config [js "A"])); StopRecording])
           {| session := initial_session; isRecording := true |})) =
    Some (js "quota exceeded").
Proof.
  refine (error_is_latest_write [WsError]
            (Fire (OnMessage 10 (Error (js "quota exceeded"))))
            [Fire (OnMessage 20 (Config [js "A"])); StopRecording]
            {| session := initial_session; isRecording := true |}
            (Some (js "quota exceeded")) eq_refl _).
  repeat constructor.
Defined.

(** X23: the recording flag is the latest write to it: after any sequence
    of handlers it is true if the last of the handlers that set it was a
    successful start, false if it was a stop; a failed start, connection
    events, messages and audio blocks leave it as it is. *)
Theorem recording_is_latest_write hs h hs' c b :
  recording_write h = Some b ->
  Forall (fun h' => recording_write h' = None) hs' ->
  isRecording (handle_all (hs ++ h :: hs') c) = b.
Proof.
  intros Hw Hrest. unfold handle_all. rewrite foldl_app. cbn [foldl].
  set (c1 := foldl handle c hs). clearbody c1.
  assert (H1 : isRecording (handle c1 h) = b).
  { destruct h as [| |cb| |[]|]; simpl in *;
    rewrite ?handleTranscription_error; congruence. }
  revert H1. generalize (handle c1 h). clear Hw.
  induction hs' as [|h' hs' IH]; intros c2 H2; [done|].
  inversion_clear Hrest as [|? ? Hh' Hrest']. cbn [foldl].
  apply IH; [done|]. rewrite <- H2.
  destruct h' as [| |cb| |[]|]; simpl in *;
    rewrite ?handleTranscription_error; congruence.
Qed.

Lemma recording_is_latest_write_witness :
  isRecording (handle_all
     ([StartRecordingBegin; StartRecordingEnd true] ++ StopRecording ::
      [StartRecordingBegin; StartRecordingEnd false; WsError])
     {| session := initial_session; isRecording := false |}) = false.
Proof.
  refine (recording_is_latest_write
            [StartRecordingBegin; StartRecordingEnd true] StopRecording
            [StartRecordingBegin; StartRecordingEnd false; WsError]
            {| session := initial_session; isRecording := false |}
            false eq_refl _).
  repeat constructor.
Defined.

(** X24: a final event for a provider whose lookup gives a state appends
    a segment exactly when its text holds a code unit that is not white
    space: tabs, line breaks, spaces, the no-break space, the byte order
    mark and the other Unicode space separators alone never make a
    segment. *)
Theorem final_appends_iff_not_blank now e s cur :
  is_final e = true ->
  resolve (states s) (provider e) = State cur ->
  exists st,
    states (onmessage now (Transcription e) s) !! provider e = Some st
    /\ length (segments st) =
         (length (segments cur) +
          if forallb is_white_space (text e) then 0 else 1)%nat.
Proof.
  intros Hf Hr. eexists. split; [apply (stored_lookup now e s cur Hr)|].
  unfold stored_state. rewrite Hf, trim_blank.
  destruct (forallb is_white_space (text e)); simpl; [lia|].
  rewrite length_app. simpl. lia.
Qed.

Lemma final_appends_iff_not_blank_witness :
  exists st,
    states (onmessage 1250
              (Transcription
                 {| provider := js "B";
                    text := [9; 32; 160; 8232; 12288; 65279]%N;
                    is_final := true;
                    timestamp := 0%Q; latency_ms := 0%Q |})
              Samples.session_hel) !! js "B" = Some st
    /\ length (segments st) =
         (length [{| seg_text := js "ok"; seg_latency := 120 |}] + 0)%nat.
Proof.
  exact (final_appends_iff_not_blank 1250
           {| provider := js "B";
              text := [9; 32; 160; 8232; 12288; 65279]%N;
              is_final := true;
              timestamp := 0%Q; latency_ms := 0%Q |}
           Samples.session_hel
           {| segments := [{| seg_text := js "ok"; seg_latency := 120 |}];
              partialText := []; latency := 120; lastUpdate := 800 |}
           eq_refl eq_refl).
Defined.
